(** * Property converters of the SGF codec (core/prop/converter_list.go)

    A shallow embedding of the five property converters (SZ, AB/AW, B/W, KM,
    PL) together with the parts of the Go runtime and standard library they
    call, followed by the properties of the converters. *)

From Stdlib Require Import ZArith List String Ascii Bool Lia.
From Stdlib Require Import Decimal DecimalString DecimalPos.
From Stdlib Require Import Floats.SpecFloat.
Import ListNotations.

Local Open Scope string_scope.
Local Open Scope Z_scope.

(** ** The Go runtime: panics, errors, calls *)

(** IEEE 754 binary64, the representation of Go's [float64]. *)
Definition float64 : Type := spec_float.

(** A run-time panic.  The converters can only raise the first one by
    themselves; the second is what a nil pointer dereference raises. *)
Inductive panic : Type :=
| IndexOutOfRange (index length : Z)
| NilDereference.

(** The outcome of a Go call: it returns its results or it panics. *)
Inductive call (A : Type) : Type :=
| Returns (a : A)
| Panics (p : panic).
Arguments Returns {A} a.
Arguments Panics {A} p.

(** Sequencing: a panic ends the whole call. *)
Definition bind {A B : Type} (c : call A) (k : A -> call B) : call B :=
  match c with
  | Returns a => k a
  | Panics p => Panics p
  end.

Declare Scope go_scope.
Delimit Scope go_scope with go.
Notation "x <- c ;; k" := (bind c (fun x => k))
  (at level 61, c at next level, right associativity) : go_scope.
Notation "' p <- c ;; k" := (bind c (fun x => let p := x in k))
  (at level 61, p pattern, c at next level, right associativity) : go_scope.

(** The two sentinel errors of package strconv. *)
Inductive NumErr : Type := ErrSyntax | ErrRange.

(** Go's [error] values as the converters build them.  [Errorf] keeps the
    format string and the arguments of the [fmt.Errorf] call that made the
    error, so that each error site of the source is one recognisable value;
    [NumError] is [*strconv.NumError]; [ForeignError] is an error made by a
    collaborating package whose text is not part of this package. *)
Inductive error : Type :=
| NumError (Func Num : string) (Err : NumErr)
| Errorf (format : string) (args : list fmtarg)
| ForeignError (origin detail : string)
with fmtarg : Type :=
| ArgStr (s : string)
| ArgInt (z : Z)
| ArgStrs (l : list string)
| ArgFloat (f : float64)
| ArgErr (e : error).

(** [s[i]] on a slice: the element, or the run-time panic. *)
Definition index {A : Type} (s : list A) (i : nat) : call A :=
  match nth_error s i with
  | Some a => Returns a
  | None => Panics (IndexOutOfRange (Z.of_nat i) (Z.of_nat (List.length s)))
  end.

(** [len(s)] as a Go [int]. *)
Definition len {A : Type} (s : list A) : Z := Z.of_nat (List.length s).

(** ** float64 and package math *)

Module f64.

Definition prec : Z := 53.
Definition emax : Z := 1024.

(** The float64 nearest to [m * 2^e], ties to even. *)
Definition of_scaled (neg : bool) (m e : Z) : float64 :=
  match m with
  | Z0 => S754_zero neg
  | Zpos p => binary_round prec emax neg p e
  | Zneg _ => S754_nan
  end.

(** The float64 nearest to [num / den] for [0 <= num] and [0 < den], ties to
    even. *)
Definition of_ratio (neg : bool) (num den : Z) : float64 :=
  if num =? 0 then S754_zero neg
  else
    let '(q, e, l) := SFdiv_core_binary prec emax num 0 den 0 in
    binary_round_aux prec emax neg q e l.

Definition zero : float64 := S754_zero false.
Definition half : float64 := Eval cbv in of_scaled false 1 (-1).
Definition one : float64 := Eval cbv in of_scaled false 1 0.
Definition minus_half : float64 := Eval cbv in of_scaled true 1 (-1).

(** The float64 values proper: the finite ones are in IEEE 754 canonical
    form (a 53-bit significand, or a shorter one at the least exponent). *)
Definition valid (f : float64) : bool := valid_binary prec emax f.

(** The bits of the significand of [m * 2^e] that lie below the binary
    point: the fractional part is [fraction_bits m e * 2^e]. *)
Definition fraction_bits (m : positive) (e : Z) : Z :=
  if e <? 0 then Zpos m mod 2 ^ (- e) else 0.

(** The sign bit. *)
Definition is_negative (f : float64) : bool :=
  match f with
  | S754_zero s | S754_infinity s | S754_finite s _ _ => s
  | S754_nan => false
  end.

(** A number without fractional part. *)
Definition is_whole (f : float64) : bool :=
  match f with
  | S754_zero _ => true
  | S754_finite _ m e => fraction_bits m e =? 0
  | _ => false
  end.

(** A number whose fractional part is one half: [k + 1/2] or [- (k + 1/2)]
    for a natural number [k]. *)
Definition is_half_point (f : float64) : bool :=
  match f with
  | S754_finite _ m e => (e <? 0) && (fraction_bits m e =? 2 ^ (- e - 1))
  | _ => false
  end.

(** Go's [==], [<], unary [-] and binary [-] on float64. *)
Definition eqb (x y : float64) : bool := SFeqb x y.
Definition ltb (x y : float64) : bool := SFltb x y.
Definition neg (x : float64) : float64 := SFopp x.
Definition sub (x y : float64) : float64 := SFsub prec emax x y.

End f64.

Module math.

(** The bit mask of [modf]: the low [-e] bits of the significand, the ones
    below the binary point, are cleared. *)
Definition clear_fraction_bits (f : float64) : float64 :=
  match f with
  | S754_finite s m e =>
      if e <? 0
      then S754_finite s (Z.to_pos (Z.shiftl (Z.shiftr (Zpos m) (- e)) (- e))) e
      else f
  | _ => f
  end.

(** [modf] for an argument that is not negative (or is NaN). *)
Definition modf_nonneg (f : float64) : float64 * float64 :=
  if f64.ltb f f64.one then
    if f64.eqb f f64.zero then (f, f) else (f64.zero, f)
  else
    let int := clear_fraction_bits f in
    (int, f64.sub f int).

(** [math.Modf]: the integer and the fractional part, both with the sign of
    the argument. *)
Definition Modf (f : float64) : float64 * float64 :=
  if f64.ltb f f64.one && f64.ltb f f64.zero then
    let '(int, frac) := modf_nonneg (f64.neg f) in
    (f64.neg int, f64.neg frac)
  else modf_nonneg f.

End math.

(** ** Package strconv: integers *)

Module strconv.

Definition maxInt : Z := 9223372036854775807.
Definition minInt : Z := -9223372036854775808.

Definition is_digit (c : ascii) : bool :=
  let k := Z.of_nat (nat_of_ascii c) in (48 <=? k) && (k <=? 57).

Definition digit_val (c : ascii) : Z := Z.of_nat (nat_of_ascii c) - 48.

Definition maxUint64 : Z := 18446744073709551615.

(** The digit loop of [ParseUint] in base 10, which [Atoi] runs on the bytes
    after the sign: a byte that is not a decimal digit is a syntax error, a
    value that no longer fits 64 bits a range error, whichever comes
    first. *)
Fixpoint parse_uint (n : Z) (s : string) : Z + NumErr :=
  match s with
  | EmptyString => inl n
  | String c s' =>
      if is_digit c then
        let n1 := n * 10 + digit_val c in
        if n1 >? maxUint64 then inr ErrRange else parse_uint n1 s'
      else inr ErrSyntax
  end.

(** The optional sign in front of a number. *)
Definition split_sign (s : string) : bool * string :=
  match s with
  | String c r =>
      if (c =? "+")%char then (false, r)
      else if (c =? "-")%char then (true, r)
      else (false, s)
  | EmptyString => (false, s)
  end.

(** [strconv.Atoi] for a 64-bit [int]: an optional sign, then at least one
    decimal digit and nothing else; a value outside [int] is clamped and
    reported with [ErrRange]. *)
Definition Atoi (s : string) : Z * option error :=
  let '(neg, digits) := split_sign s in
  match digits with
  | EmptyString => (0, Some (NumError "Atoi" s ErrSyntax))
  | _ =>
      match parse_uint 0 digits with
      | inr ErrSyntax => (0, Some (NumError "Atoi" s ErrSyntax))
      | inr ErrRange =>
          (if neg then minInt else maxInt, Some (NumError "Atoi" s ErrRange))
      | inl un =>
          if negb neg && (maxInt <? un) then
            (maxInt, Some (NumError "Atoi" s ErrRange))
          else if neg && (- minInt <? un) then
            (minInt, Some (NumError "Atoi" s ErrRange))
          else (if neg then - un else un, None)
      end
  end.

(** Every byte of [s] is a decimal digit. *)
Fixpoint all_digits (s : string) : bool :=
  match s with
  | EmptyString => true
  | String c s' => is_digit c && all_digits s'
  end.

(** The number read when the decimal digits [d] follow a prefix that reads as
    [n]. *)
Fixpoint uint_value (d : Decimal.uint) (n : Z) : Z :=
  match d with
  | Nil => n
  | D0 l => uint_value l (n * 10 + 0)
  | D1 l => uint_value l (n * 10 + 1)
  | D2 l => uint_value l (n * 10 + 2)
  | D3 l => uint_value l (n * 10 + 3)
  | D4 l => uint_value l (n * 10 + 4)
  | D5 l => uint_value l (n * 10 + 5)
  | D6 l => uint_value l (n * 10 + 6)
  | D7 l => uint_value l (n * 10 + 7)
  | D8 l => uint_value l (n * 10 + 8)
  | D9 l => uint_value l (n * 10 + 9)
  end.

(** [strconv.Itoa]: the decimal rendering, with a leading minus sign for a
    negative number. *)
Definition Itoa (i : Z) : string := NilZero.string_of_int (Z.to_int i).

(** *** Floating point *)

Definition lower (c : ascii) : ascii := ascii_of_N (N.lor (N_of_ascii c) 32).

Definition is_hex_letter (c : ascii) : bool :=
  let k := Z.of_nat (nat_of_ascii (lower c)) in (97 <=? k) && (k <=? 102).

Definition hex_letter_val (c : ascii) : Z :=
  Z.of_nat (nat_of_ascii (lower c)) - 97 + 10.

Fixpoint to_lower (s : string) : string :=
  match s with
  | EmptyString => EmptyString
  | String c s' =>
      let k := Z.of_nat (nat_of_ascii c) in
      String (if (65 <=? k) && (k <=? 90) then lower c else c) (to_lower s')
  end.

(** [special]: the spellings of the infinities and of NaN that [ParseFloat]
    takes as a whole string. *)
Definition special (s : string) : option float64 :=
  let '(signed, neg, body) :=
    match s with
    | String "+"%char r => (true, false, r)
    | String "-"%char r => (true, true, r)
    | _ => (false, false, s)
    end in
  let b := to_lower body in
  if (b =? "inf")%string || (b =? "infinity")%string then Some (S754_infinity neg)
  else if negb signed && (b =? "nan")%string then Some S754_nan
  else None.

(** What [readFloat] has seen of the digits before the exponent: the
    significand as an exact integer, and how many of its digits follow the
    point. *)
Record mantissa : Type := mkMantissa {
  sawdot : bool;
  sawdigits : bool;
  underscores : bool;
  mant : Z;
  fracdigits : Z
}.

Definition push_digit (base d : Z) (st : mantissa) : mantissa :=
  mkMantissa (sawdot st) true (underscores st) (mant st * base + d)
             (if sawdot st then fracdigits st + 1 else fracdigits st).

(** The digit loop of [readFloat]; it stops at the first byte that is not
    part of the significand and returns the rest of the string. *)
Fixpoint read_mantissa (hex : bool) (st : mantissa) (s : string)
  : mantissa * string :=
  match s with
  | EmptyString => (st, s)
  | String c s' =>
      if (c =? "_")%char then
        read_mantissa hex
          (mkMantissa (sawdot st) (sawdigits st) true (mant st) (fracdigits st)) s'
      else if (c =? ".")%char then
        if sawdot st then (st, s)
        else read_mantissa hex
               (mkMantissa true (sawdigits st) (underscores st) (mant st)
                           (fracdigits st)) s'
      else if is_digit c then
        read_mantissa hex (push_digit (if hex then 16 else 10) (digit_val c) st) s'
      else if hex && is_hex_letter c then
        read_mantissa hex (push_digit 16 (hex_letter_val c) st) s'
      else (st, s)
  end.

(** The digits of the exponent; as in the source the value stops growing
    once it has reached 10000. *)
Fixpoint read_exp_digits (e : Z) (us : bool) (s : string) : Z * bool * string :=
  match s with
  | EmptyString => (e, us, s)
  | String c s' =>
      if is_digit c then
        read_exp_digits (if e <? 10000 then e * 10 + digit_val c else e) us s'
      else if (c =? "_")%char then read_exp_digits e true s'
      else (e, us, s)
  end.

(** The optional exponent: [None] when it is malformed (or, for a
    hexadecimal significand, absent). *)
Definition read_exponent (hex : bool) (us : bool) (s : string)
  : option (Z * bool * string) :=
  match s with
  | String c s1 =>
      if (lower c =? (if hex then "p" else "e"))%char then
        let '(esign, s2) :=
          match s1 with
          | String "+"%char r => (1, r)
          | String "-"%char r => (-1, r)
          | _ => (1, s1)
          end in
        match s2 with
        | String d _ =>
            if is_digit d then
              let '(e, us', rest) := read_exp_digits 0 us s2 in
              Some (e * esign, us', rest)
            else None
        | EmptyString => None
        end
      else if hex then None else Some (0, us, s)
  | EmptyString => if hex then None else Some (0, us, s)
  end.

Inductive saw : Type := SawStart | SawDigit | SawUnderscore | SawOther.

Fixpoint underscore_loop (hex : bool) (last : saw) (s : string) : bool :=
  match s with
  | EmptyString => match last with SawUnderscore => false | _ => true end
  | String c s' =>
      if is_digit c || (hex && is_hex_letter c) then underscore_loop hex SawDigit s'
      else if (c =? "_")%char then
        match last with
        | SawDigit => underscore_loop hex SawUnderscore s'
        | _ => false
        end
      else
        match last with
        | SawUnderscore => false
        | _ => underscore_loop hex SawOther s'
        end
  end.

(** [underscoreOK]: every underscore separates two digits (or follows the
    base prefix). *)
Definition underscoreOK (s : string) : bool :=
  let s1 :=
    match s with
    | String "+"%char r => r
    | String "-"%char r => r
    | _ => s
    end in
  match s1 with
  | String "0"%char (String c r) =>
      let l := lower c in
      if (l =? "b")%char || (l =? "o")%char || (l =? "x")%char
      then underscore_loop (l =? "x")%char SawDigit r
      else underscore_loop false SawStart s1
  | _ => underscore_loop false SawStart s1
  end.

(** [strconv.ParseFloat(s, 64)]: the float64 nearest to the decimal or
    hexadecimal literal [s], ties to even.  A malformed string is a syntax
    error; a literal beyond the largest float64 gives an infinity together
    with a range error. *)
Definition ParseFloat (s : string) : float64 * option error :=
  let syntax := (f64.zero, Some (NumError "ParseFloat" s ErrSyntax)) in
  match special s with
  | Some f => (f, None)
  | None =>
      let '(neg, s1) :=
        match s with
        | String "+"%char r => (false, r)
        | String "-"%char r => (true, r)
        | _ => (false, s)
        end in
      let '(hex, s2) :=
        match s1 with
        | String "0"%char (String x (String c r)) =>
            if (lower x =? "x")%char then (true, String c r) else (false, s1)
        | _ => (false, s1)
        end in
      let '(m, s3) := read_mantissa hex (mkMantissa false false false 0 0) s2 in
      if negb (sawdigits m) then syntax
      else
        match read_exponent hex (underscores m) s3 with
        | None => syntax
        | Some (e, us, rest) =>
            if us && negb (underscoreOK s) then syntax
            else
              match rest with
              | String _ _ => syntax
              | EmptyString =>
                  let f :=
                    if hex then f64.of_scaled neg (mant m) (e - 4 * fracdigits m)
                    else
                      let x := e - fracdigits m in
                      if 0 <=? x then f64.of_scaled neg (mant m * 10 ^ x) 0
                      else f64.of_ratio neg (mant m) (10 ^ (- x)) in
                  match f with
                  | S754_infinity _ => (f, Some (NumError "ParseFloat" s ErrRange))
                  | _ => (f, None)
                  end
              end
        end
  end.

Definition digit_char (d : Z) : ascii := ascii_of_nat (Z.to_nat (48 + d)).

(** [num / den] rounded to an integer, ties to even. *)
Definition round_half_even (num den : Z) : Z :=
  let q := num / den in
  match 2 * (num mod den) ?= den with
  | Lt => q
  | Gt => q + 1
  | Eq => if Z.even q then q else q + 1
  end.

(** The last [k] decimal digits of [r], in front of [acc]. *)
Fixpoint frac_digits (k : nat) (r : Z) (acc : string) : string :=
  match k with
  | O => acc
  | S k' => frac_digits k' (r / 10) (String (digit_char (r mod 10)) acc)
  end.

(** [r / 10^prec] written with [prec] digits after the point. *)
Definition fixed (r : Z) (prec : nat) : string :=
  Itoa (r / 10 ^ Z.of_nat prec) ++
  match prec with
  | O => ""
  | _ => String "."%char (frac_digits prec r "")
  end.

(** [strconv.FormatFloat(f, 'f', prec, 64)]: no exponent, [prec] digits after
    the point, the exact value rounded to that many digits, ties to even. *)
Definition FormatFloat_f (f : float64) (prec : nat) : string :=
  match f with
  | S754_nan => "NaN"
  | S754_infinity false => "+Inf"
  | S754_infinity true => "-Inf"
  | S754_zero s => (if s then "-" else "") ++ fixed 0 prec
  | S754_finite s m e =>
      let scale := 10 ^ Z.of_nat prec in
      let r :=
        if 0 <=? e then Zpos m * 2 ^ e * scale
        else round_half_even (Zpos m * scale) (2 ^ (- e)) in
      (if s then "-" else "") ++ fixed r prec
  end.

End strconv.

(** ** The collaborating packages: color, move, movetree *)

Module color.

(** Modelled from the spec: the colour type of package color, which is not
    among the sources.  The converters compare and print a [Color] as a
    string ([PL To] switches on the literals and prints the field with %s),
    "empty string = unspecified", and the canonical letters are B and W. *)
Definition Color : Type := string.
Definition Empty : Color := "".
Definition Black : Color := "B".
Definition White : Color := "W".

(** Modelled from the spec: [color.FromSGFProp], which "resolves the color
    implied by the code": the black placement and move codes give Black, the
    white ones White; any other code has no colour and is an error. *)
Definition FromSGFProp (p : string) : Color * option error :=
  if (p =? "AB")%string || (p =? "B")%string then (Black, None)
  else if (p =? "AW")%string || (p =? "W")%string then (White, None)
  else (Empty, Some (ForeignError "color.FromSGFProp" p)).

End color.

Module move.
Section WithPoint.

(** The point type of package point and its parser [point.NewFromSGF] stay
    abstract: the textual coordinate encoding belongs to that package. *)
Variable Point : Type.
Variable NewFromSGF : string -> Point + error.

(** Modelled from the spec: a move or placement of package move is a
    "color + point-or-pass"; the point is a pointer, nil for a pass. *)
Record Move : Type := New { Color : color.Color; Point_ : option Point }.

Definition NewPass (col : color.Color) : Move := New col None.

Definition IsPass (m : Move) : bool :=
  match Point_ m with
  | None => true
  | Some _ => false
  end.

(** Modelled from the spec: [move.FromSGFPoint], the "external move
    constructor, which itself encodes pass-vs-point": the empty string is the
    pass sentinel, any other string must parse as a point. *)
Definition FromSGFPoint (col : color.Color) (sgfPt : string)
  : option Move * option error :=
  if (sgfPt =? "")%string then (Some (NewPass col), None)
  else
    match NewFromSGF sgfPt with
    | inl pt => (Some (New col (Some pt)), None)
    | inr e => (None, Some e)
    end.

(** Modelled from the spec: [move.ListFromSGFPoints] "converts each raw value
    into a placement" and "fails if any raw point fails to parse". *)
Fixpoint ListFromSGFPoints (col : color.Color) (sgfPts : list string)
  : list Move * option error :=
  match sgfPts with
  | [] => ([], None)
  | sgfPt :: rest =>
      match FromSGFPoint col sgfPt with
      | (Some mv, None) =>
          match ListFromSGFPoints col rest with
          | (out, None) => (mv :: out, None)
          | (_, Some e) => ([], Some e)
          end
      | (_, Some e) => ([], Some e)
      | (None, None) => ([], None)
      end
  end.

End WithPoint.

Arguments New {Point} Color Point_.
Arguments Color {Point} m.
Arguments Point_ {Point} m.
Arguments NewPass {Point} col.
Arguments IsPass {Point} m.
Arguments FromSGFPoint {Point} NewFromSGF col sgfPt.
Arguments ListFromSGFPoints {Point} NewFromSGF col sgfPts.

End move.

Module movetree.

(** The game-wide metadata a node may point to.  The zero value is what
    [&movetree.GameInfo{}] allocates. *)
Module GameInfo.
Record t : Type := mk {
  Size : Z;
  Komi : option float64;
  Player : color.Color
}.
Definition zero : t := mk 0 None color.Empty.
End GameInfo.

(** The fields of a node the converters read and write; [GameInfo], [Move]
    and [Komi] are pointers, nil when absent. *)
Module Node.
Record t (Point : Type) : Type := mk {
  GameInfo : option GameInfo.t;
  Move : option (move.Move Point);
  Placements : list (move.Move Point)
}.
Arguments mk {Point} GameInfo Move Placements.
Arguments GameInfo {Point} _.
Arguments Move {Point} _.
Arguments Placements {Point} _.

(** [movetree.NewNode()]: nothing set. *)
Definition fresh {Point : Type} : t Point := mk None None [].
End Node.

End movetree.

(** ** Package prop: the converters *)

Module prop.

Import movetree.

(** *** The errors

    One definition for each [fmt.Errorf] of the source, with the format
    string and the arguments of the call. *)

Definition SZ_arity_error (prop : string) (l : Z) : error :=
  Errorf "for prop %s, data  must be exactly 1, was %d" [ArgStr prop; ArgInt l].

Definition SZ_parse_error (prop : string) (data : list string) (err : error)
  : error :=
  Errorf "for prop %s, error parsing data %v as integer: %v"
         [ArgStr prop; ArgStrs data; ArgErr err].

Definition SZ_range_error (prop : string) (sz : Z) : error :=
  Errorf "for prop %s, size was %d, but must be between 1 and 25"
         [ArgStr prop; ArgInt sz].

Definition SZ_invalid_size_error (sz : Z) : error :=
  Errorf "invalid board size: %d, but only values between 1 and 25 are allowed"
         [ArgInt sz].

Definition two_moves_error : error :=
  Errorf "found two moves on one node at move" [].

Definition move_arity_error : error :=
  Errorf "expected black move data to have exactly one value or zero values" [].

Definition KM_fraction_error (komi : float64) : error :=
  Errorf "for prop KM, value was %f, but the only decimal-value allowed for komi is .0 or .5"
         [ArgFloat komi].

Definition KM_invalid_komi_error (komi : float64) : error :=
  Errorf "invalid komi: the only decimal-value allowed for komi is .0 or .5. komi was %f"
         [ArgFloat komi].

Definition PL_arity_error (l : Z) : error :=
  Errorf "PL property requires exactly 1 Value, but had %d" [ArgInt l].

Definition PL_value_error (value : string) : error :=
  Errorf "Prop PL has invalid value of %s" [ArgStr value].

Definition PL_invalid_player_error (player : color.Color) : error :=
  Errorf "prop PL can only have value W or B, but was %s" [ArgStr player].

(** The applicability scope a converter declares. *)
Inductive Scope : Type := RootScope | AllScope.

Section Converters.

Local Open Scope go_scope.

Context {Point : Type}.

(** [point.NewFromSGF] and the method [ToSGF] of a point pointer, whose
    receiver is the pointer a move holds (nil for a pass). *)
Variable NewFromSGF : string -> Point + error.
Variable ToSGF : option Point -> call (string * option error).

Local Abbreviation Node := (Node.t Point).
Local Abbreviation Move := (move.Move Point).

(** What [From] leaves behind: how the call ended and the node as it is
    then, since [From] writes through the node pointer. *)
Definition decoded : Type := call (option error) * Node.

(** What [To] returns: the pair (fragment, error), unless the call panics. *)
Definition encoded : Type := call (string * option error).

Record SGFConverter : Type := {
  Props : list string;
  Scope_ : Scope;
  From : Node -> string -> list string -> decoded;
  To : Node -> encoded
}.

(** [if n.GameInfo == nil { n.GameInfo = &movetree.GameInfo{} }] *)
Definition ensure_GameInfo (n : Node) : Node :=
  match Node.GameInfo n with
  | None => Node.mk (Some GameInfo.zero) (Node.Move n) (Node.Placements n)
  | Some _ => n
  end.

(** An assignment [n.GameInfo.f = v] through the pointer [n.GameInfo]. *)
Definition assign_GameInfo (n : Node) (f : GameInfo.t -> GameInfo.t) : decoded :=
  match Node.GameInfo n with
  | None => (Panics NilDereference, n)
  | Some gi =>
      (Returns None, Node.mk (Some (f gi)) (Node.Move n) (Node.Placements n))
  end.

Definition set_Size (sz : Z) (gi : GameInfo.t) : GameInfo.t :=
  GameInfo.mk sz (GameInfo.Komi gi) (GameInfo.Player gi).

Definition set_Komi (k : option float64) (gi : GameInfo.t) : GameInfo.t :=
  GameInfo.mk (GameInfo.Size gi) k (GameInfo.Player gi).

Definition set_Player (c : color.Color) (gi : GameInfo.t) : GameInfo.t :=
  GameInfo.mk (GameInfo.Size gi) (GameInfo.Komi gi) c.

(** *** Board size: SZ *)

Definition SZ_From (n : Node) (prop : string) (data : list string) : decoded :=
  let l := len data in
  if negb (l =? 1) then
    (Returns (Some (SZ_arity_error prop l)), n)
  else
    match index data 0 with
    | Panics p => (Panics p, n)
    | Returns d0 =>
        let '(sz, err) := strconv.Atoi d0 in
        match err with
        | Some e =>
            (Returns (Some (SZ_parse_error prop data e)), n)
        | None =>
            if (sz <? 1) || (sz >? 25) then
              (Returns (Some (SZ_range_error prop sz)), n)
            else assign_GameInfo (ensure_GameInfo n) (set_Size sz)
        end
    end.

Definition SZ_To (n : Node) : encoded :=
  match Node.GameInfo n with
  | None => Returns ("", None)
  | Some gi =>
      let sz := GameInfo.Size gi in
      if sz =? 0 then Returns ("", None)
      else if (sz <? 1) || (sz >? 25) then
        Returns ("", Some (SZ_invalid_size_error sz))
      else Returns ("SZ[" ++ strconv.Itoa sz ++ "]", None)
  end.

(** The node as [SZ From] leaves it when it stores [sz]: GameInfo is created
    if it was absent, and only its size field changes. *)
Definition with_Size (n : Node) (sz : Z) : Node :=
  Node.mk (Some (set_Size sz
                   (match Node.GameInfo n with
                    | Some gi => gi
                    | None => GameInfo.zero
                    end)))
          (Node.Move n) (Node.Placements n).

(** *** Placements: AB, AW *)

Definition AB_AW_From (n : Node) (prop : string) (data : list string) : decoded :=
  let '(col, err) := color.FromSGFProp prop in
  match err with
  | Some e => (Returns (Some e), n)
  | None =>
      let '(moves, err) := move.ListFromSGFPoints NewFromSGF col data in
      match err with
      | Some e => (Returns (Some e), n)
      | None =>
          (Returns None,
           Node.mk (Node.GameInfo n) (Node.Move n) (Node.Placements n ++ moves)%list)
      end
  end.

(** The tests [mv.Color() == color.Black] and [mv.Color() == color.White]. *)
Definition is_black (mv : Move) : bool := (move.Color mv =? color.Black)%string.
Definition is_white (mv : Move) : bool := (move.Color mv =? color.White)%string.

(** The loop over [n.Placements]: the two slices [black] and [white] grow by
    [append]; the first point that does not render ends the call with its
    error. *)
Fixpoint collect_placements (ps : list Move) (black white : list string)
  : call (list string * list string + error) :=
  match ps with
  | [] => Returns (inl (black, white))
  | mv :: rest =>
      '(sgfPt, err) <- ToSGF (move.Point_ mv) ;;
      match err with
      | Some e => Returns (inr e)
      | None =>
          if is_black mv then
            collect_placements rest (black ++ [sgfPt])%list white
          else if is_white mv then
            collect_placements rest black (white ++ [sgfPt])%list
          else collect_placements rest black white
      end
  end.

(** The loops [for _, pt := range pts { out.WriteString("[" + pt + "]") }]. *)
Fixpoint write_points (pts : list string) : string :=
  match pts with
  | [] => ""
  | pt :: rest => ("[" ++ pt ++ "]") ++ write_points rest
  end.

Definition AB_AW_To (n : Node) : encoded :=
  if len (Node.Placements n) =? 0 then Returns ("", None)
  else
    r <- collect_placements (Node.Placements n) [] [] ;;
    match r with
    | inr e => Returns ("", Some e)
    | inl (black, white) =>
        Returns ((if len black >? 0 then "AB" else "") ++ write_points black ++
                 (if len white >? 0 then "AW" else "") ++ write_points white,
                 None)
    end.

(** *** Moves: B, W *)

Definition B_W_From (n : Node) (prop : string) (data : list string) : decoded :=
  let '(col, err) := color.FromSGFProp prop in
  match err with
  | Some e => (Returns (Some e), n)
  | None =>
      match Node.Move n with
      | Some _ => (Returns (Some two_moves_error), n)
      | None =>
          if negb (len data =? 1) && negb (len data =? 0) then
            (Returns (Some move_arity_error), n)
          else
            let data := if len data =? 0 then [""] else data in
            match index data 0 with
            | Panics p => (Panics p, n)
            | Returns d0 =>
                let '(mv, err) := move.FromSGFPoint NewFromSGF col d0 in
                match err with
                | Some e => (Returns (Some e), n)
                | None =>
                    (Returns None, Node.mk (Node.GameInfo n) mv (Node.Placements n))
                end
            end
      end
  end.

Definition B_W_To (n : Node) : encoded :=
  match Node.Move n with
  | None => Returns ("", None)
  | Some mv =>
      let col :=
        if is_black mv then "B"
        else if is_white mv then "W"
        else "" in
      if move.IsPass mv then Returns (col ++ "[]", None)
      else
        '(sgfPt, err) <- ToSGF (move.Point_ mv) ;;
        match err with
        | Some e => Returns ("", Some e)
        | None => Returns (col ++ "[" ++ sgfPt ++ "]", None)
        end
  end.

(** *** Komi: KM *)

(** The test [fp == 0.5 || fp == 0.0] both directions of the converter make
    on the fractional part [math.Modf] returns. *)
Definition komi_fraction_ok (komi : float64) : bool :=
  let '(_, fp) := math.Modf komi in
  f64.eqb fp f64.half || f64.eqb fp f64.zero.

Definition KM_From (n : Node) (prop : string) (data : list string) : decoded :=
  match index data 0 with
  | Panics p => (Panics p, n)
  | Returns d0 =>
      let '(komi, err) := strconv.ParseFloat d0 in
      match err with
      | Some e => (Returns (Some e), n)
      | None =>
          if negb (komi_fraction_ok komi) then
            (Returns (Some (KM_fraction_error komi)), n)
          else assign_GameInfo (ensure_GameInfo n) (set_Komi (Some komi))
      end
  end.

Definition KM_To (n : Node) : encoded :=
  match Node.GameInfo n with
  | None => Returns ("", None)
  | Some gi =>
      match GameInfo.Komi gi with
      | None => Returns ("", None)
      | Some komi =>
          if negb (komi_fraction_ok komi) then
            Returns ("", Some (KM_invalid_komi_error komi))
          else
            let s := strconv.FormatFloat_f komi 1 in
            Returns ("KM[" ++ s ++ "]", None)
      end
  end.

(** The node as [KM From] leaves it when it stores [komi]: GameInfo is
    created if it was absent, and only its komi field changes. *)
Definition with_Komi (n : Node) (komi : float64) : Node :=
  Node.mk (Some (set_Komi (Some komi)
                   (match Node.GameInfo n with
                    | Some gi => gi
                    | None => GameInfo.zero
                    end)))
          (Node.Move n) (Node.Placements n).

(** *** Player to move: PL *)

Definition PL_From (n : Node) (prop : string) (data : list string) : decoded :=
  if negb (len data =? 1) then
    (Returns (Some (PL_arity_error (len data))), n)
  else
    let n := ensure_GameInfo n in
    match index data 0 with
    | Panics p => (Panics p, n)
    | Returns d0 =>
        if (d0 =? "B")%string || (d0 =? "b")%string then
          assign_GameInfo n (set_Player color.Black)
        else if (d0 =? "W")%string || (d0 =? "w")%string then
          assign_GameInfo n (set_Player color.White)
        else
          (Returns (Some (PL_value_error d0)), n)
    end.

Definition PL_To (n : Node) : encoded :=
  match Node.GameInfo n with
  | None => Returns ("", None)
  | Some gi =>
      let player := GameInfo.Player gi in
      if (player =? "")%string then Returns ("", None)
      else if (player =? "W")%string || (player =? "B")%string then
        Returns ("PL[" ++ player ++ "]", None)
      else
        Returns ("", Some (PL_invalid_player_error player))
  end.

(** The node as [PL From] leaves it when it stores [c]: GameInfo is created
    if it was absent, and only its player field changes. *)
Definition with_Player (n : Node) (c : color.Color) : Node :=
  Node.mk (Some (set_Player c
                   (match Node.GameInfo n with
                    | Some gi => gi
                    | None => GameInfo.zero
                    end)))
          (Node.Move n) (Node.Placements n).

(** *** The table *)

Definition converters : list SGFConverter :=
  [ {| Props := ["SZ"]; Scope_ := RootScope; From := SZ_From; To := SZ_To |};
    {| Props := ["AB"; "AW"]; Scope_ := AllScope; From := AB_AW_From; To := AB_AW_To |};
    {| Props := ["B"; "W"]; Scope_ := AllScope; From := B_W_From; To := B_W_To |};
    {| Props := ["KM"]; Scope_ := RootScope; From := KM_From; To := KM_To |};
    {| Props := ["PL"]; Scope_ := RootScope; From := PL_From; To := PL_To |} ].

(** [propToConv]: the map from property code to converter, filled by one
    pass over the table; [mp[p] = c] is a new binding in front of the older
    ones, which it shadows. *)
Definition registry : Type := list (string * SGFConverter).

Definition register (mp : registry) (c : SGFConverter) : registry :=
  fold_left (fun mp p => (p, c) :: mp) (Props c) mp.

Definition propToConv : registry := fold_left register converters [].

Fixpoint lookup (mp : registry) (p : string) : option SGFConverter :=
  match mp with
  | [] => None
  | (q, c) :: rest => if (p =? q)%string then Some c else lookup rest p
  end.

End Converters.

End prop.

(** ** A sample point codec

    SGF writes a point as two letters, a..z for 0..25 and A..Z for 26..51.
    This instance of the abstract codec is what the converters are run with
    on concrete inputs. *)

Module sgfpoint.

Record Point : Type := mk { X : Z; Y : Z }.

Definition coord (c : ascii) : option Z :=
  let k := Z.of_nat (nat_of_ascii c) in
  if (97 <=? k) && (k <=? 122) then Some (k - 97)
  else if (65 <=? k) && (k <=? 90) then Some (k - 65 + 26)
  else None.

Definition letter (z : Z) : ascii :=
  ascii_of_nat (Z.to_nat (if z <? 26 then z + 97 else z - 26 + 65)).

Definition NewFromSGF (s : string) : Point + error :=
  match s with
  | String a (String b EmptyString) =>
      match coord a, coord b with
      | Some x, Some y => inl (mk x y)
      | _, _ => inr (ForeignError "point.NewFromSGF" s)
      end
  | _ => inr (ForeignError "point.NewFromSGF" s)
  end.

Definition ToSGF (pt : option Point) : call (string * option error) :=
  match pt with
  | None => Panics NilDereference
  | Some p =>
      if (0 <=? X p) && (X p <=? 51) && (0 <=? Y p) && (Y p <=? 51)
      then Returns (String (letter (X p)) (String (letter (Y p)) EmptyString), None)
      else Returns ("", Some (ForeignError "point.ToSGF" ""))
  end.

End sgfpoint.

(** ** Facts about the runtime and package strconv *)

(** Replaces the integer comparisons of the goal whose outcome [lia] can
    tell by that outcome. *)
Ltac decide_cmp :=
  repeat match goal with
  | |- context [?a <? ?b] =>
      first [ replace (a <? b) with true by (symmetry; apply Z.ltb_lt; lia)
            | replace (a <? b) with false by (symmetry; apply Z.ltb_ge; lia) ]
  | |- context [?a <=? ?b] =>
      first [ replace (a <=? b) with true by (symmetry; apply Z.leb_le; lia)
            | replace (a <=? b) with false by (symmetry; apply Z.leb_gt; lia) ]
  | |- context [?a >? ?b] => rewrite (Z.gtb_ltb a b)
  | |- context [?a =? ?b] =>
      first [ replace (a =? b) with true by (symmetry; apply Z.eqb_eq; lia)
            | replace (a =? b) with false by (symmetry; apply Z.eqb_neq; lia) ]
  end.

Lemma index_singleton (A : Type) (a : A) : index [a] 0 = Returns a.
Proof. reflexivity. Qed.

Lemma len_singleton (A : Type) (a : A) : len [a] = 1.
Proof. reflexivity. Qed.

Lemma string_app_assoc (a b c : string) : ((a ++ b) ++ c = a ++ (b ++ c))%string.
Proof. induction a as [|x a IH]; simpl; [reflexivity | now rewrite IH]. Qed.

(** [Atoi] reads back what [Itoa] writes: the digits [Itoa] writes are those
    of [Pos.to_uint], whose value [parse_uint] accumulates. *)
Lemma uint_value_ge (d : Decimal.uint) :
  forall n, 0 <= n -> n <= strconv.uint_value d n.
Proof.
  induction d; intros n Hn; simpl; try lia;
    (etransitivity; [|apply IHd]; lia).
Qed.

Lemma uint_value_acc (d : Decimal.uint) :
  forall acc, strconv.uint_value d (Zpos acc) = Zpos (Pos.of_uint_acc d acc).
Proof.
  induction d; intros acc; cbn [strconv.uint_value Pos.of_uint_acc]; trivial;
    rewrite <- IHd; f_equal; lia.
Qed.

Lemma uint_value_of_uint (d : Decimal.uint) :
  strconv.uint_value d 0 = Z.of_N (Pos.of_uint d).
Proof. induction d; simpl; trivial; apply uint_value_acc. Qed.

Lemma uint_value_to_uint (p : positive) :
  strconv.uint_value (Pos.to_uint p) 0 = Zpos p.
Proof. now rewrite uint_value_of_uint, Unsigned.of_to. Qed.

(** The digit loop reads a digit string as its value, as long as the value
    fits 64 bits. *)
Lemma parse_uint_string_of_uint (d : Decimal.uint) :
  forall n, 0 <= n ->
    strconv.uint_value d n <= strconv.maxUint64 ->
    strconv.parse_uint n (NilEmpty.string_of_uint d) =
      inl (strconv.uint_value d n).
Proof.
  induction d; intros n Hn Hv; simpl; trivial;
    change (strconv.is_digit _) with true; cbv iota;
    match goal with
    | |- context [strconv.digit_val ?c] =>
        let v := eval vm_compute in (strconv.digit_val c) in
        change (strconv.digit_val c) with v
    end;
    simpl in Hv;
    match type of Hv with
    | strconv.uint_value _ ?m <= _ =>
        pose proof (uint_value_ge d m ltac:(lia));
        replace (m >? strconv.maxUint64) with false
          by (symmetry; rewrite Z.gtb_ltb; apply Z.ltb_ge; lia);
        apply IHd; lia
    end.
Qed.

Lemma parse_uint_to_uint (p : positive) :
  Zpos p <= strconv.maxUint64 ->
  strconv.parse_uint 0 (NilEmpty.string_of_uint (Pos.to_uint p)) = inl (Zpos p).
Proof.
  intros Hp. rewrite <- (uint_value_to_uint p).
  apply parse_uint_string_of_uint; [lia|]. now rewrite uint_value_to_uint.
Qed.

(** For every [int] the decimal rendering reads back as the number. *)
Lemma Atoi_Itoa (z : Z) :
  strconv.minInt <= z <= strconv.maxInt ->
  strconv.Atoi (strconv.Itoa z) = (z, None).
Proof.
  intros Hz. unfold strconv.Itoa.
  destruct z as [|p|p]; [reflexivity| |]; simpl Z.to_int;
    unfold NilZero.string_of_int, NilZero.string_of_uint;
    pose proof (Unsigned.to_uint_nonnil p) as Hnil;
    assert (Hparse := parse_uint_to_uint p);
    unfold strconv.Atoi;
    unfold strconv.minInt, strconv.maxInt, strconv.maxUint64 in *;
    specialize (Hparse ltac:(lia));
    (destruct (Pos.to_uint p) eqn:E; [contradiction| ..]);
    simpl NilEmpty.string_of_uint in *;
    cbn [strconv.split_sign Ascii.eqb Bool.eqb]; cbv iota; rewrite Hparse.
  all: cbn [negb andb].
  all: try (replace (9223372036854775807 <? Z.pos p) with false
              by (symmetry; apply Z.ltb_ge; lia); reflexivity).
  all: change (- -9223372036854775808) with 9223372036854775808;
    replace (9223372036854775808 <? Z.pos p) with false
      by (symmetry; apply Z.ltb_ge; lia); reflexivity.
Qed.

Lemma string_of_uint_digits (d : Decimal.uint) :
  strconv.all_digits (NilEmpty.string_of_uint d) = true.
Proof. induction d; simpl; trivial. Qed.

(** The decimal rendering of a number that is not negative is a non-empty
    string of digits. *)
Lemma Itoa_nonneg (z : Z) :
  0 <= z ->
  strconv.all_digits (strconv.Itoa z) = true /\ strconv.Itoa z <> "".
Proof.
  intros Hz. unfold strconv.Itoa.
  destruct z as [|p|p]; [| |lia]; simpl.
  - split; [reflexivity | discriminate].
  - pose proof (string_of_uint_digits (Pos.to_uint p)) as Hd.
    destruct (Pos.to_uint p); simpl in *; split; trivial; discriminate.
Qed.

Lemma digit_char_is_digit (d : Z) :
  0 <= d < 10 -> strconv.is_digit (strconv.digit_char d) = true.
Proof.
  intros H.
  assert (d = 0 \/ d = 1 \/ d = 2 \/ d = 3 \/ d = 4 \/
          d = 5 \/ d = 6 \/ d = 7 \/ d = 8 \/ d = 9) as Hd by lia.
  repeat destruct Hd as [-> | Hd]; subst; reflexivity.
Qed.

Lemma round_half_even_nonneg (num den : Z) :
  0 <= num -> 0 < den -> 0 <= strconv.round_half_even num den.
Proof.
  intros Hn Hd. unfold strconv.round_half_even.
  pose proof (Z.div_pos num den Hn Hd).
  destruct (2 * (num mod den) ?= den); [destruct (Z.even _)| |]; lia.
Qed.

(** One digit after the point: the shape of [fixed r 1]. *)
Lemma fixed_one_digit (r : Z) :
  0 <= r ->
  exists whole d,
    strconv.fixed r 1 = whole ++ "." ++ String d "" /\
    whole <> "" /\ strconv.all_digits whole = true /\
    strconv.is_digit d = true.
Proof.
  intros Hr. exists (strconv.Itoa (r / 10)), (strconv.digit_char (r mod 10)).
  destruct (Itoa_nonneg (r / 10)) as [Hd Hne]; [apply Z.div_pos; lia|].
  repeat split; trivial.
  apply digit_char_is_digit. apply Z.mod_pos_bound. lia.
Qed.

(** [FormatFloat(komi, 'f', 1, 64)] of a number: an optional minus sign, at
    least one digit, the point, one digit. *)
Lemma FormatFloat_f_one_digit (komi : float64) :
  match komi with
  | S754_nan | S754_infinity _ => False
  | _ => True
  end ->
  exists sign whole d,
    strconv.FormatFloat_f komi 1 = sign ++ whole ++ "." ++ String d "" /\
    (sign = "" \/ sign = "-") /\
    whole <> "" /\ strconv.all_digits whole = true /\
    strconv.is_digit d = true.
Proof.
  destruct komi as [s|s| |s m e]; try contradiction; intros _.
  - destruct (fixed_one_digit 0) as (whole & d & E & H); [lia|].
    exists (if s then "-" else ""), whole, d. unfold strconv.FormatFloat_f.
    rewrite E. split; [reflexivity|]. split; [destruct s; auto | exact H].
  - unfold strconv.FormatFloat_f.
    set (r := if 0 <=? e then _ else _).
    assert (Hr : 0 <= r).
    { subst r. destruct (0 <=? e) eqn:He.
      - apply Z.leb_le in He.
        pose proof (Z.pow_nonneg 2 e). pose proof (Z.pow_nonneg 10 (Z.of_nat 1)).
        nia.
      - apply Z.leb_gt in He. apply round_half_even_nonneg.
        + pose proof (Z.pow_nonneg 10 (Z.of_nat 1)). nia.
        + apply Z.pow_pos_nonneg; lia. }
    destruct (fixed_one_digit r Hr) as (whole & d & E & H).
    exists (if s then "-" else ""), whole, d.
    rewrite E. split; [reflexivity|]. split; [destruct s; auto | exact H].
Qed.

(** ** Facts about float64 and [math.Modf] *)

Section Float64Facts.

Local Abbreviation fexp := (SpecFloat.fexp f64.prec f64.emax).

(** A positive number with [k] binary digits lies in [[2^(k-1), 2^k)]. *)
Lemma digits2_pos_bounds (p : positive) :
  2 ^ (Zpos (digits2_pos p) - 1) <= Zpos p < 2 ^ Zpos (digits2_pos p).
Proof.
  induction p as [p IH|p IH|]; cbn [digits2_pos]; [| |simpl; lia];
    rewrite Pos2Z.inj_succ;
    replace (Z.succ (Zpos (digits2_pos p)) - 1) with (Zpos (digits2_pos p)) by lia;
    rewrite Z.pow_succ_r by lia;
    assert (E : 2 ^ Zpos (digits2_pos p) = 2 * 2 ^ (Zpos (digits2_pos p) - 1))
      by (rewrite <- Z.pow_succ_r by lia; f_equal; lia);
    lia.
Qed.

(** The digit count is determined by these bounds. *)
Lemma digits2_pos_unique (p : positive) (k : Z) :
  2 ^ (k - 1) <= Zpos p < 2 ^ k -> Zpos (digits2_pos p) = k.
Proof.
  intros [Hlo Hhi]. pose proof (digits2_pos_bounds p) as [Blo Bhi].
  assert (0 < k).
  { destruct (Z.ltb_spec 0 k); trivial. destruct k; simpl in Hhi; lia. }
  destruct (Z.lt_trichotomy (Zpos (digits2_pos p)) k) as [H1|[H1|H1]];
    trivial; exfalso.
  - assert (2 ^ Zpos (digits2_pos p) <= 2 ^ (k - 1))
      by (apply Z.pow_le_mono_r; lia).
    lia.
  - assert (2 ^ k <= 2 ^ (Zpos (digits2_pos p) - 1))
      by (apply Z.pow_le_mono_r; lia).
    lia.
Qed.

(** Shifting a significand left by [k] bits. *)
Lemma iter_xO_value (p k : positive) :
  Zpos (Pos.iter xO p k) = Zpos p * 2 ^ Zpos k.
Proof.
  induction k using Pos.peano_ind.
  - simpl. lia.
  - rewrite Pos.iter_succ, Pos2Z.inj_succ, Z.pow_succ_r by lia.
    rewrite Pos2Z.inj_xO, IHk. lia.
Qed.

Lemma digits2_pos_iter_xO (p k : positive) :
  digits2_pos (Pos.iter xO p k) = (digits2_pos p + k)%positive.
Proof.
  induction k using Pos.peano_ind.
  - simpl. lia.
  - rewrite Pos.iter_succ. cbn [digits2_pos]. rewrite IHk. lia.
Qed.

(** The exponent of the canonical form of a number of magnitude [x]. *)
Lemma fexp_eq (x : Z) : fexp x = Z.max (x - 53) (-1074).
Proof. reflexivity. Qed.

Lemma pow2_52 : 2 ^ 52 = Zpos 4503599627370496.
Proof. reflexivity. Qed.

(** A significand already in canonical form is not rounded. *)
Lemma binary_round_aux_exact (s : bool) (mz : positive) (ez : Z) :
  fexp (Zpos (digits2_pos mz) + ez) = ez ->
  binary_round_aux f64.prec f64.emax s (Zpos mz) ez loc_Exact =
    if ez <=? f64.emax - f64.prec then S754_finite s mz ez else S754_infinity s.
Proof.
  intros H. unfold binary_round_aux, shr_fexp.
  cbn [Zdigits2 shr_record_of_loc]. rewrite H, Z.sub_diag.
  cbn [shr shr_m loc_of_shr_record round_nearest_even Zdigits2].
  rewrite H, Z.sub_diag. cbn [shr shr_m]. reflexivity.
Qed.

(** [binary_round] is exact on [p * 2^e] when [p] is short enough for the
    canonical exponent not to exceed [e]: the significand is only shifted
    left. *)
Lemma binary_round_exact (s : bool) (p : positive) (e : Z) :
  fexp (Zpos (digits2_pos p) + e) <= e ->
  binary_round f64.prec f64.emax s p e =
    let e' := fexp (Zpos (digits2_pos p) + e) in
    if e' <=? f64.emax - f64.prec
    then S754_finite s (Z.to_pos (Zpos p * 2 ^ (e - e'))) e'
    else S754_infinity s.
Proof.
  intros H. unfold binary_round, shl_align.
  set (e' := fexp (Zpos (digits2_pos p) + e)) in *. cbv zeta.
  destruct (e' - e) as [|d|d] eqn:Ed; try lia.
  - assert (e' = e) as E by lia.
    rewrite binary_round_aux_exact by (fold e'; lia).
    rewrite E, Z.sub_diag. simpl (2 ^ 0). rewrite Z.mul_1_r. reflexivity.
  - rewrite binary_round_aux_exact.
    + replace (e - e') with (Zpos d) by lia.
      rewrite <- iter_xO_value. reflexivity.
    + rewrite digits2_pos_iter_xO, Pos2Z.inj_add.
      replace (Zpos (digits2_pos p) + Zpos d + e')
        with (Zpos (digits2_pos p) + e) by lia.
      reflexivity.
Qed.

(** *** Rounding gives float64 values proper *)

(** Shifting right: [shr_1] halves the significand, the two flags keep what
    was lost. *)
Lemma shr_1_m (mrs : shr_record) :
  0 <= shr_m mrs -> shr_m (shr_1 mrs) = shr_m mrs / 2.
Proof.
  destruct mrs as [m r s]. cbn [shr_m shr_1]. intros Hm.
  destruct m as [|[p|p|]|p]; cbn [shr_m]; try lia; try reflexivity.
  - rewrite Pos2Z.inj_xI. apply Z.div_unique with 1; lia.
  - rewrite Pos2Z.inj_xO. apply Z.div_unique with 0; lia.
Qed.

Lemma iter_shr_1_m (n : positive) : forall mrs,
  0 <= shr_m mrs ->
  shr_m (iter_pos shr_1 n mrs) = shr_m mrs / 2 ^ Zpos n.
Proof.
  assert (Hstep : forall mrs, 0 <= shr_m mrs -> 0 <= shr_m (shr_1 mrs)).
  { intros mrs H. rewrite shr_1_m by exact H. apply Z.div_pos; lia. }
  assert (Hpow : forall k, 0 < 2 ^ Zpos k)
    by (intros; apply Z.pow_pos_nonneg; lia).
  induction n as [n IH|n IH|]; intros mrs Hm; cbn [iter_pos].
  - assert (H1 := Hstep mrs Hm).
    assert (H2 : 0 <= shr_m (iter_pos shr_1 n (shr_1 mrs))).
    { rewrite IH by exact H1. apply Z.div_pos; [lia|apply Hpow]. }
    rewrite IH by exact H2. rewrite IH by exact H1.
    rewrite shr_1_m by exact Hm.
    pose proof (Hpow n).
    rewrite !Z.div_div by lia.
    f_equal. replace (Zpos n~1) with (1 + Zpos n + Zpos n) by lia.
    rewrite !Z.pow_add_r by lia. change (2 ^ 1) with 2. lia.
  - assert (H2 : 0 <= shr_m (iter_pos shr_1 n mrs)).
    { rewrite IH by exact Hm. apply Z.div_pos; [lia|apply Hpow]. }
    rewrite IH by exact H2. rewrite IH by exact Hm.
    pose proof (Hpow n).
    rewrite !Z.div_div by lia.
    f_equal. replace (Zpos n~0) with (Zpos n + Zpos n) by lia.
    rewrite !Z.pow_add_r by lia. lia.
  - rewrite shr_1_m by exact Hm. reflexivity.
Qed.

(** The digit count of a quotient by a power of two. *)
Lemma Zdigits2_nonneg (m : Z) : 0 <= Zdigits2 m.
Proof. destruct m; simpl; lia. Qed.

Lemma Zdigits2_bounds (m : Z) :
  0 < m -> 2 ^ (Zdigits2 m - 1) <= m < 2 ^ Zdigits2 m.
Proof.
  destruct m as [|p|p]; try lia. intros _. apply digits2_pos_bounds.
Qed.

Lemma Zdigits2_unique (m k : Z) :
  2 ^ (k - 1) <= m < 2 ^ k -> 0 < m -> Zdigits2 m = k.
Proof.
  destruct m as [|p|p]; try lia. intros H _. now apply digits2_pos_unique.
Qed.

Lemma Zdigits2_shift (m n : Z) :
  0 < m -> 0 <= n ->
  (n < Zdigits2 m -> Zdigits2 (m / 2 ^ n) = Zdigits2 m - n /\ 0 < m / 2 ^ n) /\
  (Zdigits2 m <= n -> m / 2 ^ n = 0).
Proof.
  intros Hm Hn. pose proof (Zdigits2_bounds m Hm) as [Hlo Hhi].
  assert (Hp : 0 < 2 ^ n) by (apply Z.pow_pos_nonneg; lia).
  split.
  - intros Hlt.
    assert (E1 : 2 ^ (Zdigits2 m - 1) = 2 ^ (Zdigits2 m - n - 1) * 2 ^ n)
      by (rewrite <- Z.pow_add_r by lia; f_equal; lia).
    assert (E2 : 2 ^ Zdigits2 m = 2 ^ (Zdigits2 m - n) * 2 ^ n)
      by (rewrite <- Z.pow_add_r by lia; f_equal; lia).
    assert (Hq : 2 ^ (Zdigits2 m - n - 1) <= m / 2 ^ n < 2 ^ (Zdigits2 m - n)).
    { split.
      - apply Z.div_le_lower_bound; lia.
      - apply Z.div_lt_upper_bound; lia. }
    assert (0 < 2 ^ (Zdigits2 m - n - 1)) by (apply Z.pow_pos_nonneg; lia).
    split; [|lia].
    apply Zdigits2_unique; [|lia].
    exact Hq.
  - intros Hge. apply Z.div_small. split; [lia|].
    assert (2 ^ Zdigits2 m <= 2 ^ n) by (apply Z.pow_le_mono_r; lia). lia.
Qed.

Lemma Zdigits2_mono (a b : Z) : 0 < a <= b -> Zdigits2 a <= Zdigits2 b.
Proof.
  intros [Ha Hab].
  pose proof (Zdigits2_bounds a Ha) as [Alo _].
  pose proof (Zdigits2_bounds b ltac:(lia)) as [_ Bhi].
  pose proof (Zdigits2_nonneg b).
  assert (H0 : 2 ^ (Zdigits2 a - 1) < 2 ^ Zdigits2 b) by lia.
  apply Z.pow_lt_mono_r_iff in H0; lia.
Qed.

Lemma fexp_mono (x y : Z) : x <= y -> fexp x <= fexp y.
Proof. rewrite !fexp_eq. lia. Qed.

Lemma fexp_ge_emin (x : Z) : -1074 <= fexp x.
Proof. rewrite fexp_eq. lia. Qed.

Lemma shr_m_of_loc (m : Z) (l : location) : shr_m (shr_record_of_loc m l) = m.
Proof. destruct l as [|[]]; reflexivity. Qed.

(** What [shr_fexp] returns when the number has at least as many digits as
    its canonical form. *)
Lemma shr_fexp_spec (m e : Z) (l : location) :
  0 <= m -> e <= fexp (Zdigits2 m + e) ->
  snd (shr_fexp f64.prec f64.emax m e l) = fexp (Zdigits2 m + e) /\
  shr_m (fst (shr_fexp f64.prec f64.emax m e l)) =
    m / 2 ^ (fexp (Zdigits2 m + e) - e).
Proof.
  intros Hm He. unfold shr_fexp, shr.
  destruct (fexp (Zdigits2 m + e) - e) as [|n|n] eqn:En; try lia; cbn [fst snd].
  - rewrite shr_m_of_loc. change (2 ^ 0) with 1. rewrite Z.div_1_r. lia.
  - rewrite iter_shr_1_m by (rewrite shr_m_of_loc; exact Hm).
    rewrite shr_m_of_loc. split; [lia | reflexivity].
Qed.

(** ... and its result, when not zero, is in canonical form. *)
Lemma shr_fexp_canonical (m e : Z) (l : location) :
  0 <= m -> e <= fexp (Zdigits2 m + e) ->
  let m' := shr_m (fst (shr_fexp f64.prec f64.emax m e l)) in
  let e' := snd (shr_fexp f64.prec f64.emax m e l) in
  0 <= m' /\ (0 < m' -> fexp (Zdigits2 m' + e') = e') /\
  (m' = 0 -> e' = -1074).
Proof.
  intros Hm He. destruct (shr_fexp_spec m e l Hm He) as [E1 E2]. cbv zeta.
  rewrite E1, E2. clear E1 E2.
  set (n := fexp (Zdigits2 m + e) - e). assert (Hn : 0 <= n) by (subst n; lia).
  assert (Hp : 0 < 2 ^ n) by (apply Z.pow_pos_nonneg; lia).
  split; [apply Z.div_pos; lia|].
  destruct (Z.eq_dec m 0) as [-> | Hm0].
  - rewrite Z.div_0_l by lia. split; [lia|]. intros _.
    cbn [Zdigits2] in *. rewrite fexp_eq in *. lia.
  - destruct (Zdigits2_shift m n ltac:(lia) Hn) as [Hlt Hge].
    split.
    + intros Hpos. destruct (Z.lt_ge_cases n (Zdigits2 m)) as [H|H].
      * destruct (Hlt H) as [Hd _]. rewrite Hd. f_equal. subst n. lia.
      * rewrite (Hge H) in Hpos. lia.
    + intros Hz. destruct (Z.lt_ge_cases n (Zdigits2 m)) as [H|H].
      * destruct (Hlt H) as [_ Hpos]. lia.
      * subst n. rewrite fexp_eq in *. lia.
Qed.

Lemma round_nearest_even_cases (m : Z) (l : location) :
  round_nearest_even m l = m \/ round_nearest_even m l = m + 1.
Proof.
  destruct l as [|[]]; cbn [round_nearest_even]; auto.
  destruct (Z.even m); auto.
Qed.

(** Every result of [binary_round_aux] is a float64 proper. *)
Lemma binary_round_aux_valid (s : bool) (mx ex : Z) (lx : location) :
  0 <= mx -> ex <= fexp (Zdigits2 mx + ex) ->
  f64.valid (binary_round_aux f64.prec f64.emax s mx ex lx) = true.
Proof.
  intros Hm He. unfold binary_round_aux.
  pose proof (shr_fexp_canonical mx ex lx Hm He) as H1. cbv zeta in H1.
  destruct (shr_fexp f64.prec f64.emax mx ex lx) as [mrs' e'].
  cbn [fst snd] in H1. destruct H1 as (Hm' & Hcan' & Hzero').
  set (m1 := round_nearest_even (shr_m mrs') (loc_of_shr_record mrs')).
  assert (Hm1 : 0 <= m1 /\ shr_m mrs' <= m1).
  { subst m1.
    destruct (round_nearest_even_cases (shr_m mrs') (loc_of_shr_record mrs'))
      as [-> | ->]; lia. }
  assert (He1 : e' <= fexp (Zdigits2 m1 + e')).
  { destruct (Z.eq_dec (shr_m mrs') 0) as [Hz|Hnz].
    - rewrite (Hzero' Hz). apply fexp_ge_emin.
    - rewrite <- (Hcan' ltac:(lia)) at 1. apply fexp_mono.
      pose proof (Zdigits2_mono (shr_m mrs') m1 ltac:(lia)). lia. }
  pose proof (shr_fexp_canonical m1 e' loc_Exact (proj1 Hm1) He1) as H2.
  cbv zeta in H2.
  destruct (shr_fexp f64.prec f64.emax m1 e' loc_Exact) as [mrs'' e''].
  cbn [fst snd] in H2. destruct H2 as (Hm'' & Hcan'' & _).
  destruct (shr_m mrs'') as [|m|m] eqn:Em; try reflexivity.
  destruct (e'' <=? f64.emax - f64.prec) eqn:Ee; [|reflexivity].
  unfold f64.valid. cbn [valid_binary]. unfold bounded, canonical_mantissa.
  rewrite Ee, andb_true_r. apply Z.eqb_eq. apply (Hcan'' ltac:(lia)).
Qed.

(** So is every result of [binary_round] and of the two conversions. *)
Lemma binary_round_valid (s : bool) (p : positive) (e : Z) :
  f64.valid (binary_round f64.prec f64.emax s p e) = true.
Proof.
  unfold binary_round, shl_align.
  set (e' := fexp (Zpos (digits2_pos p) + e)).
  destruct (e' - e) as [|d|d] eqn:Ed;
    apply binary_round_aux_valid; cbn [Zdigits2]; fold e'; try lia.
  rewrite digits2_pos_iter_xO, Pos2Z.inj_add.
  replace (Zpos (digits2_pos p) + Zpos d + e')
    with (Zpos (digits2_pos p) + e) by lia.
  fold e'. lia.
Qed.

Lemma of_scaled_valid (neg : bool) (m e : Z) :
  f64.valid (f64.of_scaled neg m e) = true.
Proof.
  destruct m; cbn [f64.of_scaled]; try reflexivity. apply binary_round_valid.
Qed.

Lemma of_ratio_valid (neg : bool) (num den : Z) :
  0 <= num -> 0 < den -> f64.valid (f64.of_ratio neg num den) = true.
Proof.
  intros Hnum Hden. unfold f64.of_ratio.
  destruct (Z.eqb_spec num 0) as [|Hnz]; [reflexivity|].
  unfold SFdiv_core_binary. rewrite !Z.add_0_r, Z.sub_diag.
  set (d1 := Zdigits2 num). set (d2 := Zdigits2 den).
  set (e' := Z.min (fexp (d1 - d2)) 0).
  assert (He' : e' <= 0) by (subst e'; lia).
  set (m' := match 0 - e' with
             | Zpos _ => Z.shiftl num (0 - e')
             | Z0 => num
             | Zneg _ => 0
             end).
  assert (Em : m' = num * 2 ^ (- e')).
  { subst m'. destruct (0 - e') as [|p|p] eqn:E; try lia.
    - replace (- e') with 0 by lia. change (2 ^ 0) with 1. lia.
    - rewrite Z.shiftl_mul_pow2 by lia. f_equal. f_equal. lia. }
  destruct (Z.div_eucl m' den) as [q r] eqn:Ediv.
  assert (Eq : q = m' / den) by (unfold Z.div; now rewrite Ediv).
  assert (Hp : 0 < 2 ^ (- e')) by (apply Z.pow_pos_nonneg; lia).
  assert (Hq : 0 <= q) by (rewrite Eq; apply Z.div_pos; nia).
  apply binary_round_aux_valid; [exact Hq|].
  pose proof (Zdigits2_bounds num ltac:(lia)) as [N1 N2]. fold d1 in N1, N2.
  pose proof (Zdigits2_bounds den Hden) as [D1 D2]. fold d2 in D1, D2.
  assert (Hd1 : 0 < d1) by (subst d1; destruct num; simpl; lia).
  assert (Hd2 : 0 < d2) by (subst d2; destruct den; simpl; lia).
  destruct (Z.eq_dec q 0) as [Hq0|Hq0].
  - (* the quotient vanishes only at the least exponent *)
    rewrite Hq0. cbn [Zdigits2]. rewrite Z.add_0_l.
    assert (Hlt : m' < den).
    { rewrite Eq in Hq0. apply Z.div_small_iff in Hq0; lia. }
    assert (Hdd : d1 - e' <= d2).
    { assert (H : 2 ^ (d1 - 1 - e') < 2 ^ d2).
      { replace (d1 - 1 - e') with ((d1 - 1) + - e') by lia.
        rewrite Z.pow_add_r by lia. nia. }
      apply Z.pow_lt_mono_r_iff in H; lia. }
    subst e'. rewrite !fexp_eq in *. lia.
  - apply Z.le_trans with (fexp (d1 - d2)); [subst e'; lia|].
    apply fexp_mono.
    destruct (Z.le_gt_cases (d1 - e' - d2) 0) as [Hk|Hk].
    + pose proof (Zdigits2_nonneg q). lia.
    + assert (Hlow : 2 ^ (d1 - e' - d2 - 1) <= q).
      { rewrite Eq. apply Z.div_le_lower_bound; [lia|].
        assert (E : 2 ^ (d1 - 1) * 2 ^ (- e') = 2 ^ (d1 - e' - d2 - 1) * 2 ^ d2)
          by (rewrite <- !Z.pow_add_r by lia; f_equal; lia).
        assert (0 < 2 ^ (d1 - e' - d2 - 1)) by (apply Z.pow_pos_nonneg; lia).
        nia. }
      pose proof (Zdigits2_bounds q ltac:(lia)) as [_ Q2].
      pose proof (Zdigits2_nonneg q) as Q0.
      assert (Hk' : 2 ^ (d1 - e' - d2 - 1) < 2 ^ Zdigits2 q) by lia.
      apply Z.pow_lt_mono_r_iff in Hk'; lia.
Qed.

Lemma is_digit_val (c : ascii) :
  strconv.is_digit c = true -> 0 <= strconv.digit_val c.
Proof.
  unfold strconv.is_digit, strconv.digit_val. intros H.
  apply andb_true_iff in H as [H _]. apply Z.leb_le in H. lia.
Qed.

Lemma is_hex_letter_val (c : ascii) :
  strconv.is_hex_letter c = true -> 0 <= strconv.hex_letter_val c.
Proof.
  unfold strconv.is_hex_letter, strconv.hex_letter_val. intros H.
  apply andb_true_iff in H as [H _]. apply Z.leb_le in H. lia.
Qed.

Lemma read_mantissa_nonneg (hex : bool) (s : string) :
  forall st, 0 <= strconv.mant st ->
    0 <= strconv.mant (fst (strconv.read_mantissa hex st s)).
Proof.
  induction s as [|c s IH]; intros st Hst; cbn [strconv.read_mantissa fst].
  - exact Hst.
  - destruct (Ascii.eqb c "_"); [apply IH; exact Hst|].
    destruct (Ascii.eqb c ".").
    { destruct (strconv.sawdot st); [exact Hst | apply IH; exact Hst]. }
    destruct (strconv.is_digit c) eqn:Hd.
    { apply IH. cbn [strconv.push_digit strconv.mant].
      pose proof (is_digit_val c Hd). destruct hex; lia. }
    destruct (hex && strconv.is_hex_letter c) eqn:Hh; [|exact Hst].
    apply IH. cbn [strconv.push_digit strconv.mant].
    apply andb_true_iff in Hh as [_ Hh].
    pose proof (is_hex_letter_val c Hh). lia.
Qed.

Lemma special_valid (s : string) (f : float64) :
  strconv.special s = Some f -> f64.valid f = true.
Proof.
  unfold strconv.special.
  match goal with
  | |- context [match ?t with pair _ _ => _ end] =>
      destruct t as [[signed neg] body]
  end.
  repeat match goal with
  | |- context [if ?b then _ else _] => destruct b
  end; intros [= <-]; reflexivity.
Qed.

(** Every float64 [ParseFloat] returns is a float64 proper. *)
Lemma ParseFloat_valid (s : string) :
  f64.valid (fst (strconv.ParseFloat s)) = true.
Proof.
  unfold strconv.ParseFloat.
  destruct (strconv.special s) as [f|] eqn:Hs.
  { exact (special_valid s f Hs). }
  match goal with
  | |- context [match ?t with pair _ _ => _ end] => destruct t as [neg s1]
  end.
  match goal with
  | |- context [match ?t with pair _ _ => _ end] => destruct t as [hex s2]
  end.
  match goal with
  | |- context [strconv.read_mantissa ?h ?st ?s2] =>
      pose proof (read_mantissa_nonneg h s2 st ltac:(cbn; lia)) as Hm;
      destruct (strconv.read_mantissa h st s2) as [m s3]
  end.
  cbn [fst] in Hm.
  destruct (negb (strconv.sawdigits m)); [reflexivity|].
  destruct (strconv.read_exponent hex (strconv.underscores m) s3)
    as [[[e us] rest]|]; [|reflexivity].
  destruct (us && negb (strconv.underscoreOK s)); [reflexivity|].
  destruct rest; [|reflexivity].
  match goal with
  | |- f64.valid (fst (match ?f with S754_infinity _ => _ | _ => _ end)) = _ =>
      assert (Hf : f64.valid f = true); [|now destruct f]
  end.
  destruct hex; [apply of_scaled_valid|].
  cbv zeta. destruct (Z.leb_spec 0 (e - strconv.fracdigits m)).
  - apply of_scaled_valid.
  - apply of_ratio_valid; [exact Hm|]. apply Z.pow_pos_nonneg; lia.
Qed.

(** *** The fraction [math.Modf] returns *)

(** What [f64.valid] says of a finite float. *)
Lemma valid_finite (s : bool) (m : positive) (e : Z) :
  f64.valid (S754_finite s m e) = true ->
  fexp (Zpos (digits2_pos m) + e) = e /\ e <= 971.
Proof.
  unfold f64.valid. cbn [valid_binary]. unfold bounded, canonical_mantissa.
  intros H. apply andb_true_iff in H as [H1 H2].
  apply Z.eqb_eq in H1. apply Z.leb_le in H2. split; [exact H1|].
  unfold f64.emax, f64.prec in H2. lia.
Qed.

Lemma fraction_bits_range (m : positive) (e : Z) :
  e < 0 -> 0 <= f64.fraction_bits m e < 2 ^ (- e).
Proof.
  intros He. unfold f64.fraction_bits. decide_cmp.
  apply Z.mod_pos_bound. apply Z.pow_pos_nonneg; lia.
Qed.

(** The difference of two positive floats with the same exponent. *)
Lemma sub_same_exponent (m m' : positive) (e : Z) :
  f64.sub (S754_finite false m e) (S754_finite false m' e) =
    binary_normalize f64.prec f64.emax (Zpos m - Zpos m') e false.
Proof.
  unfold f64.sub, SFsub. rewrite Z.min_id.
  unfold shl_align. rewrite Z.sub_diag. reflexivity.
Qed.

(** [f < 1] on a positive finite float. *)
Lemma ltb_one_finite (m : positive) (e : Z) :
  f64.ltb (S754_finite false m e) f64.one =
    match e ?= -52 with
    | Lt => true
    | Gt => false
    | Eq => (Zpos m <? 2 ^ 52)
    end.
Proof.
  unfold f64.ltb, SFltb, f64.one. cbn [SFcompare].
  destruct (e ?= -52); [|reflexivity|reflexivity].
  change (2 ^ 52) with (Zpos 4503599627370496).
  unfold Z.ltb. cbn [Z.compare].
  rewrite Pos.compare_cont_spec. cbn [Pos.switch_Eq].
  destruct (m ?= 4503599627370496)%positive; reflexivity.
Qed.

(** The fraction of a float that is at least 1: its 53-bit significand
    minus the significand without the bits below the point. *)
Lemma sub_clear_fraction_bits (m : positive) (e : Z) :
  Zpos (digits2_pos m) = 53 -> -52 <= e ->
  f64.sub (S754_finite false m e)
          (math.clear_fraction_bits (S754_finite false m e)) =
    match f64.fraction_bits m e with
    | Zpos r => binary_round f64.prec f64.emax false r e
    | _ => S754_zero false
    end.
Proof.
  intros HD He. pose proof (digits2_pos_bounds m) as [Dlo _].
  rewrite HD in Dlo. simpl (53 - 1) in Dlo.
  unfold math.clear_fraction_bits, f64.fraction_bits.
  destruct (Z.ltb_spec e 0) as [Hneg|Hpos].
  - set (d := - e). assert (Hd : 0 < d <= 52) by (subst d; lia).
    assert (Hpow : 0 < 2 ^ d) by (apply Z.pow_pos_nonneg; lia).
    assert (Hle : 2 ^ d <= 2 ^ 52) by (apply Z.pow_le_mono_r; lia).
    rewrite Z.shiftr_div_pow2, Z.shiftl_mul_pow2 by lia.
    assert (Hq : 1 <= Zpos m / 2 ^ d)
      by (apply Z.div_le_lower_bound; lia).
    pose proof (Z.div_mod (Zpos m) (2 ^ d) ltac:(lia)) as Hdm.
    pose proof (Z.mod_pos_bound (Zpos m) (2 ^ d) Hpow) as Hr.
    rewrite sub_same_exponent.
    replace (Zpos m - Zpos (Z.to_pos (Zpos m / 2 ^ d * 2 ^ d)))
      with (Zpos m mod 2 ^ d) by (rewrite Z2Pos.id by nia; lia).
    destruct (Zpos m mod 2 ^ d) as [|r|r]; try reflexivity. lia.
  - rewrite sub_same_exponent, Z.sub_diag. reflexivity.
Qed.

(** The fractional part [modf] computes for a positive float: the bits of
    the significand below the point, as a float of their own. *)
Lemma modf_nonneg_fraction (m : positive) (e : Z) :
  f64.valid (S754_finite false m e) = true ->
  snd (math.modf_nonneg (S754_finite false m e)) =
    match f64.fraction_bits m e with
    | Zpos r => binary_round f64.prec f64.emax false r e
    | _ => S754_zero false
    end.
Proof.
  intros Hv. destruct (valid_finite _ _ _ Hv) as [Hc He].
  rewrite fexp_eq in Hc.
  pose proof (digits2_pos_bounds m) as [Dlo Dhi].
  unfold math.modf_nonneg. rewrite ltb_one_finite.
  assert (Hlt1 : forall d, 53 <= d -> Zpos m < 2 ^ d).
  { intros d Hd. assert (Zpos (digits2_pos m) <= 53) by lia.
    assert (2 ^ Zpos (digits2_pos m) <= 2 ^ d)
      by (apply Z.pow_le_mono_r; lia).
    lia. }
  assert (Hbr : binary_round f64.prec f64.emax false m e = S754_finite false m e).
  { rewrite binary_round_exact by (rewrite fexp_eq; lia). cbv zeta.
    rewrite fexp_eq, Hc, Z.sub_diag. simpl (2 ^ 0). rewrite Z.mul_1_r.
    unfold f64.emax, f64.prec. now decide_cmp. }
  assert (Hsmall : e < 0 -> Zpos m < 2 ^ (- e) ->
            S754_finite false m e =
            match f64.fraction_bits m e with
            | Zpos r => binary_round f64.prec f64.emax false r e
            | _ => S754_zero false
            end).
  { intros He0 Hm. unfold f64.fraction_bits. decide_cmp.
    rewrite Z.mod_small by lia. now rewrite Hbr. }
  destruct (Z.compare_spec e (-52)) as [Ecmp|Ecmp|Ecmp].
  - subst e.
    destruct (Zpos m <? 2 ^ 52) eqn:Hm.
    + apply Z.ltb_lt in Hm. exfalso.
      assert (Zpos (digits2_pos m) = 53) as HD by (clear - Hc; lia).
      rewrite HD in Dlo. simpl (53 - 1) in Dlo. clear - Dlo Hm. lia.
    + cbn [snd]. apply sub_clear_fraction_bits; lia.
  - cbn [f64.eqb SFeqb SFcompare f64.zero snd].
    apply Hsmall; [lia|]. apply Hlt1. lia.
  - cbn [snd]. apply sub_clear_fraction_bits; lia.
Qed.

(** The fractional part [math.Modf] returns for a finite float is the one of
    its absolute value, with the sign of the float. *)
Lemma Modf_fraction (s : bool) (m : positive) (e : Z) :
  snd (math.Modf (S754_finite s m e)) =
    let frac := snd (math.modf_nonneg (S754_finite false m e)) in
    if s then f64.neg frac else frac.
Proof.
  unfold math.Modf. destruct s.
  - change (f64.ltb (S754_finite true m e) f64.one) with true.
    change (f64.ltb (S754_finite true m e) f64.zero) with true.
    cbn [andb f64.neg SFopp negb].
    now destruct (math.modf_nonneg (S754_finite false m e)).
  - change (f64.ltb (S754_finite false m e) f64.zero) with false.
    now rewrite andb_false_r.
Qed.

(** [fp == 0.5] on a finite float. *)
Lemma eqb_half_inv (s : bool) (mz : positive) (ez : Z) :
  f64.eqb (S754_finite s mz ez) f64.half = true <->
  s = false /\ ez = -53 /\ mz = 4503599627370496%positive.
Proof.
  unfold f64.eqb, SFeqb, f64.half. cbn [SFcompare].
  destruct s.
  { split; [discriminate | intros [H _]; discriminate]. }
  destruct (Z.compare_spec ez (-53)) as [E|E|E].
  - rewrite Pos.compare_cont_spec. cbn [Pos.switch_Eq].
    destruct (Pos.compare_spec mz 4503599627370496) as [E'|E'|E'].
    + split; auto.
    + split; [discriminate|]. intros (_ & _ & H). subst mz.
      exfalso. exact (Pos.lt_irrefl _ E').
    + split; [discriminate|]. intros (_ & _ & H). subst mz.
      exfalso. exact (Pos.lt_irrefl _ E').
  - split; [discriminate|]. intros (_ & H & _). subst ez.
    exfalso. exact (Z.lt_irrefl _ E).
  - split; [discriminate|]. intros (_ & H & _). subst ez.
    exfalso. exact (Z.lt_irrefl _ E).
Qed.

(** [fp == 0.0] on a finite float. *)
Lemma eqb_zero_finite (s : bool) (mz : positive) (ez : Z) :
  f64.eqb (S754_finite s mz ez) f64.zero = false.
Proof. now destruct s. Qed.

(** A komi that passes the fraction test is a number: the fractional part of
    a NaN or of an infinity is a NaN, which compares equal to nothing. *)
Lemma komi_fraction_ok_number (komi : float64) :
  prop.komi_fraction_ok komi = true ->
  match komi with
  | S754_nan | S754_infinity _ => False
  | _ => True
  end.
Proof.
  destruct komi as [s|s| |s m e]; trivial.
  - destruct s; vm_compute; discriminate.
  - vm_compute; discriminate.
Qed.

(** Which numbers pass the test [fp == 0.5 || fp == 0.0]: the whole numbers
    of either sign, and the half points that are not negative. *)
Theorem komi_fraction_ok_finite (s : bool) (m : positive) (e : Z) :
  f64.valid (S754_finite s m e) = true ->
  prop.komi_fraction_ok (S754_finite s m e) =
    (f64.fraction_bits m e =? 0) ||
    (negb s && (f64.fraction_bits m e =? 2 ^ (- e - 1))).
Proof.
  intros Hv.
  assert (Hv' : f64.valid (S754_finite false m e) = true) by exact Hv.
  destruct (valid_finite _ _ _ Hv) as [Hc He]. rewrite fexp_eq in Hc.
  pose proof (digits2_pos_bounds m) as [Dlo Dhi].
  unfold prop.komi_fraction_ok.
  pose proof (Modf_fraction s m e) as HM.
  destruct (math.Modf (S754_finite s m e)) as [int frac]. cbn [snd] in HM.
  rewrite (modf_nonneg_fraction m e Hv') in HM. cbv zeta in HM. subst frac.
  destruct (f64.fraction_bits m e) as [|r|r] eqn:Er.
  - (* a whole number: the fraction is a zero *)
    now destruct s.
  - (* a fraction: it is exactly representable, so [binary_round] only
       normalises it *)
    assert (Hneg : e < 0).
    { unfold f64.fraction_bits in Er.
      destruct (Z.ltb_spec e 0); [trivial | discriminate]. }
    pose proof (fraction_bits_range m e Hneg) as Hr. rewrite Er in Hr.
    assert (Hrm : Zpos r <= Zpos m).
    { unfold f64.fraction_bits in Er.
      replace (e <? 0) with true in Er by (symmetry; apply Z.ltb_lt; lia).
      rewrite <- Er. apply Z.mod_le; [lia|]. apply Z.pow_pos_nonneg; lia. }
    pose proof (digits2_pos_bounds r) as [Rlo Rhi].
    assert (HDm : Zpos (digits2_pos m) <= 53) by (clear - Hc; lia).
    assert (Hm53 : 2 ^ Zpos (digits2_pos m) <= 2 ^ 53)
      by (apply Z.pow_le_mono_r; lia).
    assert (HDr : Zpos (digits2_pos r) <= 53).
    { assert (H : 2 ^ (Zpos (digits2_pos r) - 1) < 2 ^ 53) by lia.
      apply Z.pow_lt_mono_r_iff in H; lia. }
    assert (Hemin : -1074 <= e) by (clear - Hc; lia).
    rewrite binary_round_exact by (rewrite fexp_eq; lia).
    cbv zeta. rewrite fexp_eq.
    set (e' := Z.max (Zpos (digits2_pos r) + e - 53) (-1074)).
    assert (He' : e' <= e) by (subst e'; lia).
    replace (e' <=? f64.emax - f64.prec) with true
      by (symmetry; apply Z.leb_le; unfold f64.emax, f64.prec; lia).
    assert (Hpw : 0 < 2 ^ (e - e')) by (apply Z.pow_pos_nonneg; lia).
    set (mz := Z.to_pos (Zpos r * 2 ^ (e - e'))).
    assert (Hmz : Zpos mz = Zpos r * 2 ^ (e - e'))
      by (subst mz; rewrite Z2Pos.id; nia).
    replace (Zpos r =? 0) with false by (symmetry; apply Z.eqb_neq; lia).
    rewrite orb_false_l.
    assert (Hfrac : (if s then f64.neg (S754_finite false mz e')
                     else S754_finite false mz e') = S754_finite s mz e')
      by now destruct s.
    rewrite Hfrac, eqb_zero_finite, orb_false_r.
    apply eq_true_iff_eq.
    rewrite eqb_half_inv, andb_true_iff, negb_true_iff, Z.eqb_eq.
    split.
    + intros (Hs & Ee & Em). split; [exact Hs|].
      apply (f_equal Zpos) in Em. rewrite <- pow2_52 in Em.
      assert (HD : Zpos (digits2_pos r) + e = 0) by (subst e'; lia).
      rewrite Hmz, Ee in Em.
      replace (2 ^ 52) with (2 ^ (- e - 1) * 2 ^ (e - -53)) in Em
        by (rewrite <- Z.pow_add_r by lia; f_equal; lia).
      apply Z.mul_cancel_r in Em; [exact Em|]. rewrite <- Ee. lia.
    + intros (Hs & Hhalf). split; [exact Hs|].
      assert (HD : Zpos (digits2_pos r) = - e).
      { apply digits2_pos_unique. rewrite Hhalf. split; [lia|].
        apply Z.pow_lt_mono_r; lia. }
      assert (Ee : e' = -53) by (subst e'; lia).
      split; [exact Ee|].
      apply Pos2Z.inj. rewrite <- pow2_52.
      rewrite Hmz, Hhalf, Ee, <- Z.pow_add_r; [f_equal; lia|lia|].
      assert (H : 2 ^ (- e - 1) < 2 ^ 53) by lia.
      apply Z.pow_lt_mono_r_iff in H; lia.
  - (* the remainder of a division by a power of two is not negative *)
    exfalso. unfold f64.fraction_bits in Er.
    destruct (e <? 0); [|discriminate].
    pose proof (Z.mod_pos_bound (Zpos m) (2 ^ (- e))) as H.
    assert (0 < 2 ^ (- e)) as Hp; [|specialize (H Hp); lia].
    destruct (Z.le_gt_cases 0 (- e)); [apply Z.pow_pos_nonneg; lia|].
    rewrite Z.pow_neg_r in Er by lia. rewrite Z.mod_0_r in Er. discriminate.
Qed.

(** The test [fp == 0.5 || fp == 0.0] on any float64: it passes the whole
    numbers and the half points that are not negative, and nothing else. *)
Theorem komi_fraction_ok_spec (komi : float64) :
  f64.valid komi = true ->
  prop.komi_fraction_ok komi =
    f64.is_whole komi ||
    (f64.is_half_point komi && negb (f64.is_negative komi)).
Proof.
  destruct komi as [s|s| |s m e]; intros Hv.
  - now destruct s.
  - now destruct s.
  - reflexivity.
  - rewrite (komi_fraction_ok_finite s m e Hv).
    cbn [f64.is_whole f64.is_half_point f64.is_negative].
    destruct (f64.fraction_bits m e =? 0) eqn:E0; [reflexivity|].
    cbn [orb]. destruct (Z.ltb_spec e 0) as [He|He].
    + cbn [andb]. apply andb_comm.
    + unfold f64.fraction_bits in E0.
      replace (e <? 0) with false in E0 by (symmetry; apply Z.ltb_ge; lia).
      discriminate.
Qed.

End Float64Facts.

(** ** Properties of the converters *)

Import movetree.

Section Properties.

Context {Point : Type}.
Variable NewFromSGF : string -> Point + error.
Variable ToSGF : option Point -> call (string * option error).

Local Abbreviation Node := (Node.t Point).
Local Abbreviation Move := (move.Move Point).

Lemma ensure_GameInfo_absent (n : Node) :
  Node.GameInfo n = None ->
  prop.ensure_GameInfo n =
    Node.mk (Some GameInfo.zero) (Node.Move n) (Node.Placements n).
Proof. unfold prop.ensure_GameInfo. now intros ->. Qed.

(** *** Board size *)

(** The node [SZ From] leaves behind when it succeeds with size [sz]. *)
Lemma SZ_From_accepts (n : Node) (prop v : string) (sz : Z) :
  strconv.Atoi v = (sz, None) ->
  1 <= sz <= 25 ->
  prop.SZ_From n prop [v] = (Returns None, prop.with_Size n sz).
Proof.
  intros Hv Hsz. unfold prop.SZ_From.
  rewrite len_singleton, index_singleton, Hv. simpl negb. cbv iota.
  decide_cmp. cbn [orb].
  unfold prop.assign_GameInfo, prop.ensure_GameInfo, prop.with_Size.
  destruct (Node.GameInfo n) eqn:E; simpl; rewrite ?E; reflexivity.
Qed.

(** C9: the board-size decoder returns its arity error whenever the list of
    raw values does not have exactly one element; with one element it
    returns the parse error (carrying the error of [strconv.Atoi]) when the
    value is not an integer, the range error when the integer is below 1 or
    above 25, and otherwise succeeds and stores the size.  On every failure
    the node is left as it was. *)
Theorem SZ_From_cases (n : Node) (prop : string) :
  (forall data, len data <> 1 ->
     prop.SZ_From n prop data =
       (Returns (Some (prop.SZ_arity_error prop (len data))), n)) /\
  (forall v sz e, strconv.Atoi v = (sz, Some e) ->
     prop.SZ_From n prop [v] =
       (Returns (Some (prop.SZ_parse_error prop [v] e)), n)) /\
  (forall v sz, strconv.Atoi v = (sz, None) -> sz < 1 \/ 25 < sz ->
     prop.SZ_From n prop [v] =
       (Returns (Some (prop.SZ_range_error prop sz)), n)) /\
  (forall v sz, strconv.Atoi v = (sz, None) -> 1 <= sz <= 25 ->
     exists n', prop.SZ_From n prop [v] = (Returns None, n') /\
                option_map GameInfo.Size (Node.GameInfo n') = Some sz /\
                Node.Move n' = Node.Move n /\
                Node.Placements n' = Node.Placements n) /\
  (prop.SZ_From n prop ["abc"] =
     (Returns (Some (prop.SZ_parse_error prop ["abc"]
                       (NumError "Atoi" "abc" ErrSyntax))), n) /\
   prop.SZ_From n prop ["0"] =
     (Returns (Some (prop.SZ_range_error prop 0)), n) /\
   prop.SZ_From n prop ["26"] =
     (Returns (Some (prop.SZ_range_error prop 26)), n) /\
   prop.SZ_From n prop ["-1"] =
     (Returns (Some (prop.SZ_range_error prop (-1))), n)).
Proof.
  assert (Hparse : forall v sz e, strconv.Atoi v = (sz, Some e) ->
     prop.SZ_From n prop [v] =
       (Returns (Some (prop.SZ_parse_error prop [v] e)), n)).
  { intros v sz e Hv. unfold prop.SZ_From.
    now rewrite len_singleton, index_singleton, Hv. }
  assert (Hrange : forall v sz, strconv.Atoi v = (sz, None) -> sz < 1 \/ 25 < sz ->
     prop.SZ_From n prop [v] =
       (Returns (Some (prop.SZ_range_error prop sz)), n)).
  { intros v sz Hv Hsz. unfold prop.SZ_From.
    rewrite len_singleton, index_singleton, Hv. simpl negb. cbv iota.
    replace ((sz <? 1) || (sz >? 25)) with true; [reflexivity|].
    symmetry. apply orb_true_iff. lia. }
  split; [|split; [exact Hparse|split; [exact Hrange|]]].
  2: split; [|split; [|split; [|split]]].
  - intros data Hlen. unfold prop.SZ_From.
    now apply Z.eqb_neq in Hlen as ->.
  - intros v sz Hv Hsz. eexists. split.
    + apply SZ_From_accepts; eassumption.
    + now simpl.
  - now apply (Hparse "abc" 0).
  - apply (Hrange "0" 0); [reflexivity | lia].
  - apply (Hrange "26" 26); [reflexivity | lia].
  - apply (Hrange "-1" (-1)); [reflexivity | lia].
Qed.

(** C3: for every size s from 1 to 25, decoding SZ with the one raw value
    that is the decimal rendering of s succeeds, on a fresh node as on any
    other, and encoding the resulting node gives exactly SZ[s]. *)
Theorem SZ_round_trip (n : Node) (s : Z) :
  1 <= s <= 25 ->
  exists n',
    prop.SZ_From n "SZ" [strconv.Itoa s] = (Returns None, n') /\
    prop.SZ_To n' = Returns ("SZ[" ++ strconv.Itoa s ++ "]", None).
Proof.
  intros Hs. exists (prop.with_Size n s). split.
  - apply SZ_From_accepts; [|exact Hs].
    apply Atoi_Itoa. unfold strconv.minInt, strconv.maxInt. lia.
  - unfold prop.SZ_To, prop.with_Size. simpl. now decide_cmp.
Qed.

(** *** Placements *)

(** The loop of [AB/AW To] splits the placements by colour and keeps, within
    each colour, the order they have in the node. *)
Lemma collect_placements_rendered (render : Move -> string) (ps : list Move) :
  (forall mv, In mv ps -> ToSGF (move.Point_ mv) = Returns (render mv, None)) ->
  forall black white,
    prop.collect_placements ToSGF ps black white =
      Returns (inl ((black ++ map render (filter prop.is_black ps))%list,
                    (white ++ map render (filter prop.is_white ps))%list)).
Proof.
  induction ps as [|mv ps IH]; intros Hall black white; simpl.
  - now rewrite !app_nil_r.
  - rewrite (Hall mv (or_introl eq_refl)). simpl.
    assert (Hrest : forall mv', In mv' ps ->
                      ToSGF (move.Point_ mv') = Returns (render mv', None))
      by (intros mv' Hin; apply Hall; now right).
    destruct (prop.is_black mv) eqn:Eb.
    + assert (Ew : prop.is_white mv = false).
      { unfold prop.is_black, prop.is_white in *.
        apply String.eqb_eq in Eb. now rewrite Eb. }
      rewrite Ew, (IH Hrest). simpl. now rewrite <- app_assoc.
    + destruct (prop.is_white mv) eqn:Ew.
      * rewrite (IH Hrest). simpl. now rewrite <- app_assoc.
      * now rewrite (IH Hrest).
Qed.

Lemma AB_AW_From_inv (n n' : Node) (prop : string) (data : list string) :
  prop.AB_AW_From NewFromSGF n prop data = (Returns None, n') ->
  exists col moves,
    color.FromSGFProp prop = (col, None) /\
    move.ListFromSGFPoints NewFromSGF col data = (moves, None) /\
    n' = Node.mk (Node.GameInfo n) (Node.Move n) (Node.Placements n ++ moves)%list.
Proof.
  unfold prop.AB_AW_From.
  destruct (color.FromSGFProp prop) as [col [e|]]; [discriminate|].
  destruct (move.ListFromSGFPoints NewFromSGF col data) as [moves [e|]] eqn:E;
    [discriminate|].
  intros [= <-]. now exists col, moves.
Qed.

Lemma AB_AW_From_ok (n : Node) (prop : string) (data : list string)
    (col : color.Color) (moves : list Move) :
  color.FromSGFProp prop = (col, None) ->
  move.ListFromSGFPoints NewFromSGF col data = (moves, None) ->
  prop.AB_AW_From NewFromSGF n prop data =
    (Returns None,
     Node.mk (Node.GameInfo n) (Node.Move n) (Node.Placements n ++ moves)%list).
Proof. intros Hc Hm. unfold prop.AB_AW_From. now rewrite Hc, Hm. Qed.

(** C7: a successful placement decode leaves the node with its former
    placements followed by the newly decoded ones (nothing else changes), so
    decodes accumulate.  With a point codec that reads dd, pp and cc and
    writes them back, decoding AB[dd][pp] and then AW[cc] on a node without
    placements gives the three placements in that order and encodes to
    exactly AB[dd][pp]AW[cc]; decoding AW[cc] first and AB[dd][pp] second
    encodes to the same fragment, black group first. *)
Theorem placements_accumulate_and_group :
  (forall (n n' : Node) prop data,
     prop.AB_AW_From NewFromSGF n prop data = (Returns None, n') ->
     exists moves,
       Node.Placements n' = (Node.Placements n ++ moves)%list /\
       List.length moves = List.length data /\
       Node.GameInfo n' = Node.GameInfo n /\
       Node.Move n' = Node.Move n) /\
  (forall (dd pp cc : Point) (n : Node),
     NewFromSGF "dd" = inl dd -> ToSGF (Some dd) = Returns ("dd", None) ->
     NewFromSGF "pp" = inl pp -> ToSGF (Some pp) = Returns ("pp", None) ->
     NewFromSGF "cc" = inl cc -> ToSGF (Some cc) = Returns ("cc", None) ->
     Node.Placements n = [] ->
     (exists n1 n2,
        prop.AB_AW_From NewFromSGF n "AB" ["dd"; "pp"] = (Returns None, n1) /\
        prop.AB_AW_From NewFromSGF n1 "AW" ["cc"] = (Returns None, n2) /\
        Node.Placements n2 =
          [move.New color.Black (Some dd); move.New color.Black (Some pp);
           move.New color.White (Some cc)] /\
        prop.AB_AW_To ToSGF n2 = Returns ("AB[dd][pp]AW[cc]", None)) /\
     (exists n1 n2,
        prop.AB_AW_From NewFromSGF n "AW" ["cc"] = (Returns None, n1) /\
        prop.AB_AW_From NewFromSGF n1 "AB" ["dd"; "pp"] = (Returns None, n2) /\
        prop.AB_AW_To ToSGF n2 = Returns ("AB[dd][pp]AW[cc]", None))).
Proof.
  split.
  - intros n n' prop data H.
    destruct (AB_AW_From_inv n n' prop data H) as (col & moves & _ & Hl & ->).
    exists moves. repeat split.
    clear H. revert moves Hl.
    induction data as [|d data IH]; simpl; intros moves.
    + now intros [= <-].
    + destruct (move.FromSGFPoint NewFromSGF col d) as [[mv|] [e|]] eqn:E;
        try discriminate.
      * destruct (move.ListFromSGFPoints NewFromSGF col data) as [out [e|]];
          [discriminate|].
        intros [= <-]. simpl. f_equal. now apply IH.
      * unfold move.FromSGFPoint in E.
        destruct (d =? "")%string; [discriminate|].
        destruct (NewFromSGF d); discriminate.
  - intros dd pp cc n Hdd Tdd Hpp Tpp Hcc Tcc Hn.
    set (render := fun mv : Move =>
           match move.Point_ mv with
           | Some pt => match ToSGF (Some pt) with
                        | Returns (s, _) => s
                        | Panics _ => ""
                        end
           | None => ""
           end).
    assert (Hab : move.ListFromSGFPoints NewFromSGF color.Black ["dd"; "pp"] =
                  ([move.New color.Black (Some dd);
                    move.New color.Black (Some pp)], None))
      by (simpl; unfold move.FromSGFPoint; simpl; now rewrite Hdd, Hpp).
    assert (Haw : move.ListFromSGFPoints NewFromSGF color.White ["cc"] =
                  ([move.New color.White (Some cc)], None))
      by (simpl; unfold move.FromSGFPoint; simpl; now rewrite Hcc).
    assert (Hrender : forall mv,
              In mv [move.New color.Black (Some dd); move.New color.Black (Some pp);
                     move.New color.White (Some cc)] ->
              ToSGF (move.Point_ mv) = Returns (render mv, None)).
    { intros mv [<-|[<-|[<-|[]]]]; unfold render; simpl;
        rewrite ?Tdd, ?Tpp, ?Tcc; reflexivity. }
    split.
    + eexists. eexists.
      split; [apply (AB_AW_From_ok n "AB" _ color.Black _ eq_refl Hab)|].
      split; [apply (AB_AW_From_ok _ "AW" _ color.White _ eq_refl Haw)|].
      cbn [Node.Placements Node.GameInfo Node.Move]. rewrite Hn.
      split; [reflexivity|].
      unfold prop.AB_AW_To. cbn [Node.Placements app len List.length].
      change (Z.of_nat 3 =? 0) with false. cbv iota.
      rewrite (collect_placements_rendered render _ Hrender). simpl.
      unfold render. simpl. now rewrite Tdd, Tpp, Tcc.
    + eexists. eexists.
      split; [apply (AB_AW_From_ok n "AW" _ color.White _ eq_refl Haw)|].
      split; [apply (AB_AW_From_ok _ "AB" _ color.Black _ eq_refl Hab)|].
      cbn [Node.Placements Node.GameInfo Node.Move]. rewrite Hn.
      unfold prop.AB_AW_To. cbn [Node.Placements app len List.length].
      change (Z.of_nat 3 =? 0) with false. cbv iota.
      rewrite (collect_placements_rendered render).
      * simpl. unfold render. simpl. now rewrite Tdd, Tpp, Tcc.
      * intros mv Hin. apply Hrender. simpl in *. tauto.
Qed.

(** *** Moves *)

Lemma FromSGFProp_move_codes (prop : string) :
  prop = "B" \/ prop = "W" ->
  exists col, color.FromSGFProp prop = (col, None).
Proof. intros [-> | ->]; eexists; reflexivity. Qed.

(** C5: on a node that already holds a move, decoding the property B or W
    with any raw values returns the error "found two moves on one node" and
    leaves the node, and so its move, as it was. *)
Theorem B_W_From_second_move (n : Node) (mv : Move) (prop : string)
    (data : list string) :
  Node.Move n = Some mv ->
  prop = "B" \/ prop = "W" ->
  prop.B_W_From NewFromSGF n prop data =
    (Returns (Some prop.two_moves_error), n) /\
  Node.Move (snd (prop.B_W_From NewFromSGF n prop data)) = Some mv.
Proof.
  intros Hmv Hprop.
  destruct (FromSGFProp_move_codes prop Hprop) as [col Hcol].
  assert (E : prop.B_W_From NewFromSGF n prop data =
              (Returns (Some prop.two_moves_error), n))
    by (unfold prop.B_W_From; now rewrite Hcol, Hmv).
  split; [exact E | now rewrite E].
Qed.

(** C6: on a node without a move, decoding B with no raw value or with the
    single empty raw value succeeds and stores a pass of Black, touching
    nothing else; encoding the node then gives exactly B[]. *)
Theorem B_pass_round_trip (n : Node) (data : list string) :
  Node.Move n = None ->
  data = [] \/ data = [""] ->
  let n' := Node.mk (Node.GameInfo n) (Some (move.NewPass color.Black))
                    (Node.Placements n) in
  prop.B_W_From NewFromSGF n "B" data = (Returns None, n') /\
  move.IsPass (Point := Point) (move.NewPass color.Black) = true /\
  move.Color (Point := Point) (move.NewPass color.Black) = color.Black /\
  prop.B_W_To ToSGF n' = Returns ("B[]", None).
Proof.
  intros Hmv Hdata n'. repeat split.
  unfold prop.B_W_From. simpl color.FromSGFProp. cbv iota. rewrite Hmv.
  destruct Hdata as [-> | ->]; reflexivity.
Qed.

(** *** Komi *)

(** What the komi decoder does with raw values of which the first parses
    (the others are not looked at): it stores a whole number of either sign
    and a half point that is not negative, and rejects everything else. *)
Lemma KM_From_parsed (n : Node) (prop v : string) (rest : list string)
    (komi : float64) :
  strconv.ParseFloat v = (komi, None) ->
  prop.KM_From n prop (v :: rest) =
    if f64.is_whole komi ||
       (f64.is_half_point komi && negb (f64.is_negative komi))
    then (Returns None, prop.with_Komi n komi)
    else (Returns (Some (prop.KM_fraction_error komi)), n).
Proof.
  intros Hparse. unfold prop.KM_From.
  pose proof (ParseFloat_valid v) as Hvalid. rewrite Hparse in Hvalid.
  cbn [index nth_error].
  rewrite Hparse, (komi_fraction_ok_spec komi Hvalid).
  destruct (f64.is_whole komi || _); simpl negb; cbv iota; [|reflexivity].
  unfold prop.assign_GameInfo, prop.ensure_GameInfo, prop.with_Komi.
  destruct (Node.GameInfo n) eqn:E; simpl; rewrite ?E; reflexivity.
Qed.

(** C1: the raw value -0.5 parses, without error, to the float64 -0.5, whose
    fractional part is a half point; [math.Modf] returns that fraction with
    the sign of its argument, so the test against 0.5 and 0.0 fails and the
    komi decoder returns its "only .0 or .5" error and stores nothing.  The
    same happens to every raw value that parses to a negative half point,
    while the raw values that parse to a whole number of either sign or to a
    half point that is not negative are stored. *)
Theorem KM_From_negative_half_rejected (n : Node) :
  (strconv.ParseFloat "-0.5" = (f64.minus_half, None) /\
   f64.is_half_point f64.minus_half = true /\
   math.Modf f64.minus_half = (S754_zero true, f64.minus_half) /\
   prop.KM_From n "KM" ["-0.5"] =
     (Returns (Some (prop.KM_fraction_error f64.minus_half)), n)) /\
  (forall prop v komi,
     strconv.ParseFloat v = (komi, None) ->
     f64.is_half_point komi = true -> f64.is_negative komi = true ->
     prop.KM_From n prop [v] =
       (Returns (Some (prop.KM_fraction_error komi)), n)) /\
  (forall prop v komi,
     strconv.ParseFloat v = (komi, None) ->
     f64.is_whole komi = true \/
     (f64.is_half_point komi = true /\ f64.is_negative komi = false) ->
     prop.KM_From n prop [v] = (Returns None, prop.with_Komi n komi)).
Proof.
  split; [repeat split | split].
  - intros prop v komi Hparse Hhalf Hneg.
    rewrite (KM_From_parsed n prop v [] komi Hparse), Hhalf, Hneg.
    assert (Hwhole : f64.is_whole komi = false).
    { destruct komi as [s|s| |s m e]; try discriminate.
      cbn [f64.is_half_point f64.is_whole] in *.
      apply andb_true_iff in Hhalf as [He Hhalf].
      apply Z.ltb_lt in He. apply Z.eqb_eq in Hhalf. rewrite Hhalf.
      assert (0 < 2 ^ (- e - 1)) by (apply Z.pow_pos_nonneg; lia).
      apply Z.eqb_neq. lia. }
    now rewrite Hwhole.
  - intros prop v komi Hparse H.
    rewrite (KM_From_parsed n prop v [] komi Hparse).
    destruct H as [-> | [-> ->]]; [reflexivity|].
    now rewrite orb_true_r.
Qed.

(** C2: with an empty list of raw values the komi decoder indexes [data[0]]
    before any length check and panics with an index-out-of-range run-time
    error instead of returning an error value; the board-size and
    player-to-move decoders return their arity error on the same input. *)
Theorem KM_From_empty_data_panics (n : Node) (prop : string) :
  prop.KM_From n prop [] = (Panics (IndexOutOfRange 0 0), n) /\
  prop.SZ_From n prop [] =
    (Returns (Some (prop.SZ_arity_error prop 0)), n) /\
  prop.PL_From n prop [] =
    (Returns (Some (prop.PL_arity_error 0)), n).
Proof. repeat split. Qed.

(** C4: decoding KM[6.3] fails with the komi error (the float64 nearest to
    6.3 has a fractional part that is neither 0.5 nor 0.0) and leaves the
    node as it was; decoding KM[6.5] and KM[6.0] into a fresh node succeeds
    and encoding gives back exactly KM[6.5] and KM[6.0]; and whenever the
    komi encoder produces a property at all, its value is an optional minus
    sign, at least one digit, the point and exactly one digit. *)
Theorem KM_examples_and_rendering :
  (exists komi,
     strconv.ParseFloat "6.3" = (komi, None) /\
     prop.komi_fraction_ok komi = false /\
     prop.KM_From (Point := Point) Node.fresh "KM" ["6.3"] =
       (Returns (Some (prop.KM_fraction_error komi)), Node.fresh)) /\
  (exists komi,
     strconv.ParseFloat "6.5" = (komi, None) /\
     prop.KM_From (Point := Point) Node.fresh "KM" ["6.5"] =
       (Returns None, prop.with_Komi Node.fresh komi) /\
     prop.KM_To (Point := Point) (prop.with_Komi Node.fresh komi) =
       Returns ("KM[6.5]", None)) /\
  (exists komi,
     strconv.ParseFloat "6.0" = (komi, None) /\
     prop.KM_From (Point := Point) Node.fresh "KM" ["6.0"] =
       (Returns None, prop.with_Komi Node.fresh komi) /\
     prop.KM_To (Point := Point) (prop.with_Komi Node.fresh komi) =
       Returns ("KM[6.0]", None)) /\
  (forall (n : Node) (s : string),
     prop.KM_To n = Returns (s, None) -> s <> "" ->
     exists sign whole d,
       s = "KM[" ++ sign ++ whole ++ "." ++ String d "]" /\
       (sign = "" \/ sign = "-") /\
       whole <> "" /\ strconv.all_digits whole = true /\
       strconv.is_digit d = true).
Proof.
  split; [|split; [|split]].
  - eexists. split; [vm_compute; reflexivity|]. split; vm_compute; reflexivity.
  - eexists. split; [vm_compute; reflexivity|]. split; vm_compute; reflexivity.
  - eexists. split; [vm_compute; reflexivity|]. split; vm_compute; reflexivity.
  - intros n s. unfold prop.KM_To.
    destruct (Node.GameInfo n) as [gi|]; [|intros [= <-]; congruence].
    destruct (GameInfo.Komi gi) as [komi|]; [|intros [= <-]; congruence].
    destruct (prop.komi_fraction_ok komi) eqn:Hok; simpl negb; cbv iota;
      [|intros [= <-]; congruence].
    intros [= <-] _.
    destruct (FormatFloat_f_one_digit komi (komi_fraction_ok_number komi Hok))
      as (sign & whole & d & E & H).
    exists sign, whole, d. split; [|exact H].
    rewrite E. now rewrite !string_app_assoc.
Qed.

(** *** Player to move *)

(** C10: on a node without GameInfo, a single raw value that is none of B,
    b, W, w makes the player-to-move decoder return its invalid-value error,
    and the node it leaves behind is not the node it was given: GameInfo now
    points to a fresh zero GameInfo, created before the value was looked
    at. *)
Theorem PL_From_invalid_value_mutates (n : Node) (prop v : string) :
  Node.GameInfo n = None ->
  v <> "B" -> v <> "b" -> v <> "W" -> v <> "w" ->
  let n' := Node.mk (Some GameInfo.zero) (Node.Move n) (Node.Placements n) in
  prop.PL_From n prop [v] =
    (Returns (Some (prop.PL_value_error v)), n') /\
  n' <> n.
Proof.
  intros Hgi HB Hb HW Hw n'. split.
  - unfold prop.PL_From. rewrite len_singleton. simpl negb. cbv iota.
    rewrite index_singleton, (ensure_GameInfo_absent n Hgi).
    apply String.eqb_neq in HB, Hb, HW, Hw.
    now rewrite HB, Hb, HW, Hw.
  - intros E. apply (f_equal Node.GameInfo) in E. simpl in E. congruence.
Qed.

(** *** The table *)

(** Every code the map knows leads to a converter of the table that lists
    the code among its properties; the seven codes of the table are known. *)
Lemma propToConv_sound (p : string) (c : prop.SGFConverter) :
  prop.lookup (prop.propToConv NewFromSGF ToSGF) p = Some c ->
  In c (prop.converters NewFromSGF ToSGF) /\ In p (prop.Props c).
Proof.
  cbn [prop.propToConv prop.converters prop.register prop.Props fold_left
       prop.lookup].
  repeat match goal with
  | |- context [String.eqb p ?q] =>
      destruct (String.eqb_spec p q) as [-> | _];
      [intros [= <-]; simpl; tauto|]
  end.
  discriminate.
Qed.

Lemma propToConv_codes :
  map (fun p => option_map prop.Props
                  (prop.lookup (prop.propToConv NewFromSGF ToSGF) p))
      ["SZ"; "AB"; "AW"; "B"; "W"; "KM"; "PL"; "C"] =
    [Some ["SZ"]; Some ["AB"; "AW"]; Some ["AB"; "AW"]; Some ["B"; "W"];
     Some ["B"; "W"]; Some ["KM"]; Some ["PL"]; None].
Proof. reflexivity. Qed.

(** *** Root-only properties of a node without GameInfo *)

(** C8: when the node's GameInfo is absent, the encoders of the three
    root-only properties SZ, KM and PL each return the empty fragment and no
    error; these three are exactly the converters of the table that declare
    the root scope. *)
Theorem root_only_To_without_GameInfo (n : Node) :
  Node.GameInfo n = None ->
  prop.SZ_To n = Returns ("", None) /\
  prop.KM_To n = Returns ("", None) /\
  prop.PL_To n = Returns ("", None) /\
  forall c, In c (prop.converters NewFromSGF ToSGF) ->
            prop.Scope_ c = prop.RootScope ->
            prop.To c n = Returns ("", None).
Proof.
  intros H.
  assert (Hsz : prop.SZ_To n = Returns ("", None))
    by (unfold prop.SZ_To; now rewrite H).
  assert (Hkm : prop.KM_To n = Returns ("", None))
    by (unfold prop.KM_To; now rewrite H).
  assert (Hpl : prop.PL_To n = Returns ("", None))
    by (unfold prop.PL_To; now rewrite H).
  repeat split; trivial.
  intros c Hin Hscope. simpl in Hin.
  destruct Hin as [<-|[<-|[<-|[<-|[<-|[]]]]]]; simpl in *;
    trivial; discriminate.
Qed.

End Properties.

(** ** The properties at concrete inputs, with the sample point codec *)

Section Instances.

Local Abbreviation Node := (Node.t sgfpoint.Point).
Local Abbreviation fresh := (Node.fresh (Point := sgfpoint.Point)).

(** A node that holds the move W[dp] and nothing else. *)
Local Abbreviation with_move :=
  (Node.mk (Point := sgfpoint.Point) None
     (Some (move.New color.White (Some (sgfpoint.mk 3 15)))) []).

Lemma root_only_To_without_GameInfo_witness :
  Node.GameInfo with_move = None /\
  prop.SZ_To with_move = Returns ("", None) /\
  prop.KM_To with_move = Returns ("", None) /\
  prop.PL_To with_move = Returns ("", None).
Proof.
  split; [reflexivity|].
  destruct (root_only_To_without_GameInfo sgfpoint.NewFromSGF sgfpoint.ToSGF
              with_move eq_refl) as (Hsz & Hkm & Hpl & _).
  repeat split; assumption.
Defined.

Lemma KM_From_negative_half_rejected_witness :
  prop.KM_From fresh "KM" ["-6.5"] =
    (Returns (Some (prop.KM_fraction_error
                      (S754_finite true 7318349394477056 (-50)))),
     fresh) /\
  prop.KM_From fresh "KM" ["6.5"] =
    (Returns None,
     prop.with_Komi fresh (S754_finite false 7318349394477056 (-50))) /\
  prop.KM_From fresh "KM" ["-6"] =
    (Returns None,
     prop.with_Komi fresh (S754_finite true 6755399441055744 (-50))).
Proof.
  destruct (KM_From_negative_half_rejected fresh) as (_ & Hreject & Haccept).
  split; [|split].
  - apply Hreject; reflexivity.
  - apply Haccept; [reflexivity | right; split; reflexivity].
  - apply Haccept; [reflexivity | left; reflexivity].
Defined.

Lemma PL_From_invalid_value_mutates_witness :
  prop.PL_From fresh "PL" ["x"] =
    (Returns (Some (prop.PL_value_error "x")),
     Node.mk (Some GameInfo.zero) None []) /\
  Node.mk (Some GameInfo.zero) None [] <> fresh.
Proof.
  apply (PL_From_invalid_value_mutates fresh "PL" "x" eq_refl);
    discriminate.
Defined.

Lemma B_W_From_second_move_witness :
  prop.B_W_From sgfpoint.NewFromSGF with_move "B" ["dd"] =
    (Returns (Some prop.two_moves_error), with_move) /\
  Node.Move (snd (prop.B_W_From sgfpoint.NewFromSGF with_move "B" ["dd"])) =
    Some (move.New color.White (Some (sgfpoint.mk 3 15))).
Proof.
  apply (B_W_From_second_move sgfpoint.NewFromSGF with_move _ "B" ["dd"] eq_refl).
  left. reflexivity.
Defined.

Lemma B_pass_round_trip_witness :
  prop.B_W_From sgfpoint.NewFromSGF fresh "B" [] =
    (Returns None, Node.mk None (Some (move.NewPass color.Black)) []) /\
  prop.B_W_To sgfpoint.ToSGF (Node.mk None (Some (move.NewPass color.Black)) []) =
    Returns ("B[]", None).
Proof.
  destruct (B_pass_round_trip sgfpoint.NewFromSGF sgfpoint.ToSGF fresh []
              eq_refl (or_introl eq_refl)) as (Hfrom & _ & _ & Hto).
  split; assumption.
Defined.

Lemma SZ_From_cases_witness :
  (exists e, prop.SZ_From fresh "SZ" ["19"; "19"] = (Returns (Some e), fresh)) /\
  (exists e, prop.SZ_From fresh "SZ" ["abc"] = (Returns (Some e), fresh)) /\
  (exists e, prop.SZ_From fresh "SZ" ["0"] = (Returns (Some e), fresh)) /\
  (exists e, prop.SZ_From fresh "SZ" ["26"] = (Returns (Some e), fresh)) /\
  (exists e, prop.SZ_From fresh "SZ" ["-1"] = (Returns (Some e), fresh)) /\
  (exists n', prop.SZ_From fresh "SZ" ["19"] = (Returns None, n') /\
              option_map GameInfo.Size (Node.GameInfo n') = Some 19).
Proof.
  destruct (SZ_From_cases fresh "SZ") as (Harity & Hparse & Hrange & Hok & _).
  split; [eexists; apply (Harity ["19"; "19"]); discriminate|].
  split; [eexists; apply (Hparse "abc" 0 _ eq_refl)|].
  split; [eexists; apply (Hrange "0" 0 eq_refl); left; reflexivity|].
  split; [eexists; apply (Hrange "26" 26 eq_refl); right; reflexivity|].
  split; [eexists; apply (Hrange "-1" (-1) eq_refl); left; reflexivity|].
  destruct (Hok "19" 19 eq_refl) as (n' & H1 & H2 & _).
  - split; discriminate.
  - exists n'. split; assumption.
Defined.

Lemma SZ_round_trip_witness :
  exists n' : Node,
    prop.SZ_From fresh "SZ" ["19"] = (Returns None, n') /\
    prop.SZ_To n' = Returns ("SZ[19]", None).
Proof.
  apply (SZ_round_trip fresh 19). split; discriminate.
Defined.

Lemma placements_accumulate_and_group_witness :
  exists n1 n2 : Node,
    prop.AB_AW_From sgfpoint.NewFromSGF fresh "AB" ["dd"; "pp"] = (Returns None, n1) /\
    prop.AB_AW_From sgfpoint.NewFromSGF n1 "AW" ["cc"] = (Returns None, n2) /\
    Node.Placements n2 =
      [move.New color.Black (Some (sgfpoint.mk 3 3));
       move.New color.Black (Some (sgfpoint.mk 15 15));
       move.New color.White (Some (sgfpoint.mk 2 2))] /\
    prop.AB_AW_To sgfpoint.ToSGF n2 = Returns ("AB[dd][pp]AW[cc]", None).
Proof.
  destruct (placements_accumulate_and_group sgfpoint.NewFromSGF sgfpoint.ToSGF)
    as [_ H].
  exact (proj1 (H (sgfpoint.mk 3 3) (sgfpoint.mk 15 15) (sgfpoint.mk 2 2) fresh
                  eq_refl eq_refl eq_refl eq_refl eq_refl eq_refl eq_refl)).
Defined.

Lemma KM_examples_and_rendering_witness :
  exists sign whole d,
    "KM[-6.0]" = "KM[" ++ sign ++ whole ++ "." ++ String d "]" /\
    (sign = "" \/ sign = "-") /\
    whole <> "" /\ strconv.all_digits whole = true /\
    strconv.is_digit d = true.
Proof.
  destruct (KM_examples_and_rendering (Point := sgfpoint.Point)) as (_ & _ & _ & H).
  apply (H (Node.mk (Some (GameInfo.mk 19
                             (Some (S754_finite true 6755399441055744 (-50)))
                             color.Black)) None [])).
  - reflexivity.
  - discriminate.
Defined.

End Instances.

(** ** Reading back a number written with one decimal *)

Section OneDecimal.

Local Abbreviation fexp := (SpecFloat.fexp f64.prec f64.emax).

(** Shifting out bits that are all zero loses nothing. *)
Lemma iter_shr_1_exact (n : positive) : forall k,
  0 <= k ->
  iter_pos shr_1 n (Build_shr_record (k * 2 ^ Zpos n) false false) =
    Build_shr_record k false false.
Proof.
  assert (Hone : forall k, 0 <= k ->
            shr_1 (Build_shr_record (k * 2) false false) =
              Build_shr_record k false false).
  { intros k Hk. destruct k as [|p|p]; try lia; [reflexivity|].
    replace (Zpos p * 2) with (Zpos p~0) by lia. reflexivity. }
  induction n as [n IH|n IH|]; intros k Hk; cbn [iter_pos].
  - replace (k * 2 ^ Zpos n~1) with (k * 2 ^ Zpos n * 2 ^ Zpos n * 2).
    + assert (0 <= 2 ^ Zpos n) by (apply Z.pow_nonneg; lia).
      rewrite Hone by nia. rewrite IH by nia. now apply IH.
    + replace (Zpos n~1) with (Zpos n + Zpos n + 1) by lia.
      rewrite !Z.pow_add_r by lia. change (2 ^ 1) with 2. lia.
  - replace (k * 2 ^ Zpos n~0) with (k * 2 ^ Zpos n * 2 ^ Zpos n).
    + assert (0 <= 2 ^ Zpos n) by (apply Z.pow_nonneg; lia).
      rewrite IH by nia. now apply IH.
    + replace (Zpos n~0) with (Zpos n + Zpos n) by lia.
      rewrite !Z.pow_add_r by lia. lia.
  - change (2 ^ 1) with 2. now apply Hone.
Qed.

Lemma Zdigits2_mul_pow2 (m : positive) (k : Z) :
  0 <= k -> Zdigits2 (Zpos m * 2 ^ k) = Zpos (digits2_pos m) + k.
Proof.
  intros Hk. pose proof (digits2_pos_bounds m) as [Hlo Hhi].
  assert (Hp : 0 < 2 ^ k) by (apply Z.pow_pos_nonneg; lia).
  apply Zdigits2_unique; [|nia].
  replace (Zpos (digits2_pos m) + k - 1) with (Zpos (digits2_pos m) - 1 + k)
    by lia.
  rewrite !Z.pow_add_r by lia. nia.
Qed.

(** A float64 whose significand is given with [k] more zero bits than its
    canonical form has is rounded to itself. *)
Lemma binary_round_aux_shifted (s : bool) (m : positive) (e k : Z) :
  f64.valid (S754_finite s m e) = true ->
  0 <= k ->
  binary_round_aux f64.prec f64.emax s (Zpos m * 2 ^ k) (e - k) loc_Exact =
    S754_finite s m e.
Proof.
  intros Hv Hk. destruct (valid_finite s m e Hv) as [Hc He].
  assert (Hle : (e <=? f64.emax - f64.prec) = true)
    by (apply Z.leb_le; unfold f64.emax, f64.prec; lia).
  assert (Hfirst : shr_fexp f64.prec f64.emax (Zpos m * 2 ^ k) (e - k) loc_Exact =
                     (Build_shr_record (Zpos m) false false, e)).
  { unfold shr_fexp. rewrite Zdigits2_mul_pow2 by exact Hk.
    replace (Zpos (digits2_pos m) + k + (e - k)) with (Zpos (digits2_pos m) + e)
      by lia.
    rewrite Hc. replace (e - (e - k)) with k by lia.
    unfold shr. cbn [shr_record_of_loc].
    destruct k as [|p|p]; try lia.
    - change (2 ^ 0) with 1. rewrite Z.mul_1_r, Z.sub_0_r. reflexivity.
    - rewrite iter_shr_1_exact by lia. f_equal. lia. }
  unfold binary_round_aux. rewrite Hfirst.
  cbn [shr_m loc_of_shr_record round_nearest_even shr_r shr_s].
  unfold shr_fexp. cbn [Zdigits2]. rewrite Hc, Z.sub_diag.
  cbn [shr shr_record_of_loc shr_m]. now rewrite Hle.
Qed.

(** The quotient by ten of ten times a float64 is that float64: [r] is ten
    times the absolute value of the float. *)
Lemma of_ratio_tenfold (s : bool) (m : positive) (e r : Z) :
  f64.valid (S754_finite s m e) = true ->
  (if 0 <=? e then r = 10 * (Zpos m * 2 ^ e) else r * 2 ^ (- e) = 10 * Zpos m) ->
  f64.of_ratio s r 10 = S754_finite s m e.
Proof.
  intros Hv Hr. destruct (valid_finite s m e Hv) as [Hc He].
  pose proof (digits2_pos_bounds m) as [Dlo Dhi].
  pose proof (Pos2Z.is_pos (digits2_pos m)) as Dpos.
  assert (Hrpos : 0 < r).
  { destruct (Z.leb_spec 0 e).
    - assert (0 < 2 ^ e) by (apply Z.pow_pos_nonneg; lia). nia.
    - assert (0 < 2 ^ (- e)) by (apply Z.pow_pos_nonneg; lia). nia. }
  unfold f64.of_ratio.
  replace (r =? 0) with false by (symmetry; apply Z.eqb_neq; lia).
  unfold SFdiv_core_binary. rewrite !Z.add_0_r, Z.sub_diag.
  change (Zdigits2 10) with 4.
  set (d1 := Zdigits2 r).
  set (e' := Z.min (fexp (d1 - 4)) 0).
  pose proof (Zdigits2_bounds r Hrpos) as [Rlo Rhi]. fold d1 in Rlo, Rhi.
  assert (Hd1 : 0 < d1) by (subst d1; destruct r; simpl; lia).
  assert (He' : e' <= e /\ e' <= 0).
  { split; [|subst e'; lia].
    destruct (Z.leb_spec 0 e) as [Hpos|Hneg]; [subst e'; lia|].
    apply Z.le_trans with (fexp (d1 - 4)); [subst e'; lia|].
    rewrite <- Hc. apply fexp_mono.
    assert (Hp : 0 < 2 ^ (- e)) by (apply Z.pow_pos_nonneg; lia).
    assert (Hlt : 2 ^ (d1 - 1) * 2 ^ (- e) < 2 ^ (Zpos (digits2_pos m) + 4)).
    { rewrite (Z.pow_add_r 2 (Zpos (digits2_pos m)) 4) by lia.
      change (2 ^ 4) with 16. nia. }
    rewrite <- Z.pow_add_r in Hlt by lia.
    apply Z.pow_lt_mono_r_iff in Hlt; lia. }
  destruct He' as [He'e He'0].
  set (m' := match 0 - e' with
             | Zpos _ => Z.shiftl r (0 - e')
             | Z0 => r
             | Zneg _ => 0
             end).
  assert (Em : m' = r * 2 ^ (- e')).
  { subst m'. destruct (0 - e') as [|p|p] eqn:E; try lia.
    - replace (- e') with 0 by lia. change (2 ^ 0) with 1. lia.
    - rewrite Z.shiftl_mul_pow2 by lia. f_equal. f_equal. lia. }
  assert (Em' : m' = 10 * (Zpos m * 2 ^ (e - e'))).
  { rewrite Em. destruct (Z.leb_spec 0 e) as [Hpos|Hneg].
    - subst r. replace (e - e') with (e + - e') by lia.
      rewrite Z.pow_add_r by lia. lia.
    - replace (- e') with (- e + (e - e')) by lia.
      rewrite Z.pow_add_r by lia. nia. }
  assert (Hq : 0 <= Zpos m * 2 ^ (e - e'))
    by (assert (0 <= 2 ^ (e - e')) by (apply Z.pow_nonneg; lia); nia).
  assert (Ediv : Z.div_eucl m' 10 = (Zpos m * 2 ^ (e - e'), 0)).
  { pose proof (Z.div_eucl_eq m' 10 ltac:(lia)) as Heq.
    pose proof (Z.mod_pos_bound m' 10 ltac:(lia)) as Hmod.
    unfold Z.modulo in Hmod.
    destruct (Z.div_eucl m' 10) as [q0 r0]. f_equal; lia. }
  rewrite Ediv. change (new_location 10 0) with loc_Exact.
  replace e' with (e - (e - e')) at 2 by lia.
  apply binary_round_aux_shifted; [exact Hv | lia].
Qed.

(** What [FormatFloat(komi, 'f', 1, 64)] writes for a komi that passes the
    fraction test: ten times its absolute value is an integer [r], written
    as its quotient by ten, the point, and its last digit. *)
Lemma FormatFloat_f_komi (s : bool) (m : positive) (e : Z) :
  f64.valid (S754_finite s m e) = true ->
  prop.komi_fraction_ok (S754_finite s m e) = true ->
  exists r,
    (if 0 <=? e then r = 10 * (Zpos m * 2 ^ e) else r * 2 ^ (- e) = 10 * Zpos m) /\
    0 < r /\
    strconv.FormatFloat_f (S754_finite s m e) 1 =
      (if s then "-" else "") ++ strconv.Itoa (r / 10) ++ "." ++
      String (strconv.digit_char (r mod 10)) "".
Proof.
  intros Hv Hok. rewrite (komi_fraction_ok_finite s m e Hv) in Hok.
  unfold strconv.FormatFloat_f, strconv.fixed.
  change (10 ^ Z.of_nat 1) with 10. cbn [strconv.frac_digits].
  destruct (Z.leb_spec 0 e) as [Hpos|Hneg].
  - exists (Zpos m * 2 ^ e * 10).
    assert (0 < 2 ^ e) by (apply Z.pow_pos_nonneg; lia).
    split; [lia|]. split; [nia|]. reflexivity.
  - set (P := 2 ^ (- e)).
    assert (HP : 0 < P) by (apply Z.pow_pos_nonneg; lia).
    assert (HP2 : P = 2 * 2 ^ (- e - 1)).
    { subst P. rewrite <- Z.pow_succ_r by lia. f_equal. lia. }
    assert (Hdiv : exists q, Zpos m * 10 = q * P).
    { unfold f64.fraction_bits in Hok.
      replace (e <? 0) with true in Hok by (symmetry; apply Z.ltb_lt; lia).
      fold P in Hok.
      pose proof (Z.div_mod (Zpos m) P ltac:(lia)) as Hdm.
      apply orb_true_iff in Hok as [H0 | Hh].
      - apply Z.eqb_eq in H0. exists (10 * (Zpos m / P)). lia.
      - apply andb_true_iff in Hh as [_ Hh]. apply Z.eqb_eq in Hh.
        exists (10 * (Zpos m / P) + 5). lia. }
    destruct Hdiv as [q Hq].
    assert (Hround : strconv.round_half_even (Zpos m * 10) P = q).
    { unfold strconv.round_half_even. rewrite Hq, Z.mod_mul, Z.div_mul by lia.
      change (2 * 0) with 0. now destruct (Z.compare_spec 0 P); try lia. }
    rewrite Hround. exists q.
    split; [lia|]. split; [nia|]. reflexivity.
Qed.

(** The digit loop of [readFloat] on one decimal digit, and on the decimal
    digits of a number. *)
Lemma read_mantissa_digit (c : ascii) (st : strconv.mantissa) (s : string) :
  strconv.is_digit c = true ->
  strconv.read_mantissa false st (String c s) =
    strconv.read_mantissa false (strconv.push_digit 10 (strconv.digit_val c) st) s.
Proof.
  intros Hc. cbn [strconv.read_mantissa].
  destruct (Ascii.eqb_spec c "_") as [->|_]; [discriminate Hc|].
  destruct (Ascii.eqb_spec c ".") as [->|_]; [discriminate Hc|].
  now rewrite Hc.
Qed.

Lemma read_mantissa_point (st : strconv.mantissa) (s : string) :
  strconv.sawdot st = false ->
  strconv.read_mantissa false st (String "." s) =
    strconv.read_mantissa false
      (strconv.mkMantissa true (strconv.sawdigits st) (strconv.underscores st)
                          (strconv.mant st) (strconv.fracdigits st)) s.
Proof. intros H. cbn [strconv.read_mantissa Ascii.eqb Bool.eqb]. now rewrite H. Qed.

Lemma read_mantissa_uint (d : Decimal.uint) :
  forall (st : strconv.mantissa) (rest : string),
    strconv.sawdot st = false ->
    strconv.read_mantissa false st (NilEmpty.string_of_uint d ++ rest) =
      strconv.read_mantissa false
        (strconv.mkMantissa false
           (match d with Nil => strconv.sawdigits st | _ => true end)
           (strconv.underscores st) (strconv.uint_value d (strconv.mant st))
           (strconv.fracdigits st))
        rest.
Proof.
  induction d; intros st rest Hdot;
    [destruct st; cbn in *; now subst| ..];
    cbn [NilEmpty.string_of_uint append];
    rewrite read_mantissa_digit by reflexivity;
    rewrite IHd by exact Hdot;
    cbn [strconv.push_digit strconv.sawdigits strconv.underscores strconv.mant
         strconv.fracdigits strconv.uint_value];
    rewrite Hdot;
    match goal with
    | |- context [strconv.digit_val ?c] =>
        let v := eval vm_compute in (strconv.digit_val c) in
        change (strconv.digit_val c) with v
    end;
    now destruct d.
Qed.

(** A digit is neither a sign nor the letter of the hexadecimal prefix. *)
Lemma digit_is_plain (c : ascii) :
  strconv.is_digit c = true ->
  c = "0"%char \/ c = "1"%char \/ c = "2"%char \/ c = "3"%char \/ c = "4"%char \/
  c = "5"%char \/ c = "6"%char \/ c = "7"%char \/ c = "8"%char \/ c = "9"%char.
Proof.
  destruct c as [[] [] [] [] [] [] [] []]; intros H; try discriminate H; tauto.
Qed.

(** [ParseFloat] on a literal that starts with a decimal digit (after an
    optional minus sign), is not hexadecimal, has no exponent and no
    underscore: the value is the quotient of the digits read by the power of
    ten its decimals call for. *)
Lemma ParseFloat_decimal (neg : bool) (c : ascii) (w : string)
    (m : strconv.mantissa) :
  strconv.is_digit c = true ->
  (forall x r, w = String x r -> (strconv.lower x =? "x")%char = false) ->
  strconv.read_mantissa false (strconv.mkMantissa false false false 0 0)
    (String c w) = (m, "") ->
  strconv.sawdigits m = true ->
  strconv.underscores m = false ->
  0 < strconv.fracdigits m ->
  let s := (if neg then "-" else "") ++ String c w in
  let f := f64.of_ratio neg (strconv.mant m) (10 ^ strconv.fracdigits m) in
  strconv.ParseFloat s =
    match f with
    | S754_infinity _ => (f, Some (NumError "ParseFloat" s ErrRange))
    | _ => (f, None)
    end.
Proof.
  intros Hc Hx Hread Hsd Hus Hfd s f.
  assert (Hsp : strconv.special s = None).
  { subst s. destruct (digit_is_plain c Hc)
      as [->|[->|[->|[->|[->|[->|[->|[->|[->| ->]]]]]]]]];
      destruct neg; reflexivity. }
  assert (Hhex : match String c w with
                 | String "0"%char (String x (String c' r)) =>
                     if (strconv.lower x =? "x")%char
                     then (true, String c' r) else (false, String c w)
                 | _ => (false, String c w)
                 end = (false, String c w)).
  { destruct (digit_is_plain c Hc)
      as [->|[->|[->|[->|[->|[->|[->|[->|[->| ->]]]]]]]]]; try reflexivity.
    destruct w as [|x [|c' r]]; try reflexivity.
    now rewrite (Hx x (String c' r) eq_refl). }
  assert (Hsign : match s with
                  | String "+"%char r => (false, r)
                  | String "-"%char r => (true, r)
                  | _ => (false, s)
                  end = (neg, String c w)).
  { subst s. destruct neg; [reflexivity|].
    destruct (digit_is_plain c Hc)
      as [->|[->|[->|[->|[->|[->|[->|[->|[->| ->]]]]]]]]]; reflexivity. }
  unfold strconv.ParseFloat. fold s. rewrite Hsp, Hsign, Hhex, Hread, Hsd.
  cbn [negb strconv.read_exponent]. rewrite Hus. cbn [andb].
  replace (0 <=? 0 - strconv.fracdigits m) with false
    by (symmetry; apply Z.leb_gt; lia).
  replace (- (0 - strconv.fracdigits m)) with (strconv.fracdigits m) by lia.
  reflexivity.
Qed.

(** The decimal digits [Itoa] writes for a number that is not negative. *)
Lemma Itoa_uint (n : Z) :
  0 <= n ->
  exists u, u <> Nil /\ strconv.Itoa n = NilEmpty.string_of_uint u /\
            strconv.uint_value u 0 = n.
Proof.
  intros Hn. destruct n as [|p|p]; [| |lia].
  - exists (D0 Nil). split; [discriminate|]. split; reflexivity.
  - exists (Pos.to_uint p). pose proof (Unsigned.to_uint_nonnil p) as Hnil.
    split; [exact Hnil|]. split; [|apply uint_value_to_uint].
    unfold strconv.Itoa. cbn [Z.to_int NilZero.string_of_int].
    unfold NilZero.string_of_uint. now destruct (Pos.to_uint p).
Qed.

Lemma digit_val_digit_char (d : Z) :
  0 <= d < 10 -> strconv.digit_val (strconv.digit_char d) = d.
Proof.
  intros H.
  assert (d = 0 \/ d = 1 \/ d = 2 \/ d = 3 \/ d = 4 \/
          d = 5 \/ d = 6 \/ d = 7 \/ d = 8 \/ d = 9) as Hd by lia.
  repeat destruct Hd as [-> | Hd]; subst; reflexivity.
Qed.

(** [ParseFloat] reads a number written with one decimal as the float64
    nearest to it. *)
Lemma ParseFloat_one_decimal (neg : bool) (n d : Z) :
  0 <= n -> 0 <= d < 10 ->
  let s := (if neg then "-" else "") ++ strconv.Itoa n ++ "." ++
           String (strconv.digit_char d) "" in
  let f := f64.of_ratio neg (n * 10 + d) 10 in
  strconv.ParseFloat s =
    match f with
    | S754_infinity _ => (f, Some (NumError "ParseFloat" s ErrRange))
    | _ => (f, None)
    end.
Proof.
  intros Hn Hd.
  destruct (Itoa_uint n Hn) as (u & Hnil & -> & Hval).
  pose proof (digit_char_is_digit d Hd) as Hdc.
  set (tail := "." ++ String (strconv.digit_char d) "").
  assert (Hread : strconv.read_mantissa false
                    (strconv.mkMantissa false false false 0 0)
                    (NilEmpty.string_of_uint u ++ tail) =
                  (strconv.mkMantissa true true false (n * 10 + d) 1, "")).
  { rewrite read_mantissa_uint by reflexivity.
    subst tail. cbn [append].
    rewrite read_mantissa_point by reflexivity.
    rewrite read_mantissa_digit by exact Hdc.
    cbn [strconv.read_mantissa strconv.push_digit strconv.sawdot
      strconv.sawdigits strconv.underscores strconv.mant strconv.fracdigits].
    rewrite Hval, (digit_val_digit_char d Hd). now destruct u. }
  destruct u as [|u|u|u|u|u|u|u|u|u|u]; [contradiction| ..];
    cbn [NilEmpty.string_of_uint append] in *;
    (apply (ParseFloat_decimal neg _ _
              (strconv.mkMantissa true true false (n * 10 + d) 1));
     [ reflexivity
     | destruct u; intros x r [= <- _]; reflexivity
     | exact Hread
     | reflexivity
     | reflexivity
     | cbn [strconv.fracdigits]; lia ]).
Qed.

(** Every komi that passes the fraction test is read back from what
    [FormatFloat(komi, 'f', 1, 64)] writes for it. *)
Lemma ParseFloat_FormatFloat_komi (komi : float64) :
  f64.valid komi = true ->
  prop.komi_fraction_ok komi = true ->
  strconv.ParseFloat (strconv.FormatFloat_f komi 1) = (komi, None).
Proof.
  intros Hv Hok.
  pose proof (komi_fraction_ok_number komi Hok) as Hnum.
  destruct komi as [s|s| |s m e]; try contradiction.
  - destruct s; reflexivity.
  - destruct (FormatFloat_f_komi s m e Hv Hok) as (r & Hr & Hpos & ->).
    assert (Hq : 0 <= r / 10) by (apply Z.div_pos; lia).
    assert (Hm : 0 <= r mod 10 < 10) by (apply Z.mod_pos_bound; lia).
    rewrite (ParseFloat_one_decimal s (r / 10) (r mod 10) Hq Hm).
    replace (r / 10 * 10 + r mod 10) with r
      by (pose proof (Z.div_mod r 10 ltac:(lia)); lia).
    now rewrite (of_ratio_tenfold s m e r Hv Hr).
Qed.

End OneDecimal.

(** ** Further properties of the converters *)

Section FurtherProperties.

Context {Point : Type}.
Variable NewFromSGF : string -> Point + error.
Variable ToSGF : option Point -> call (string * option error).

Local Abbreviation Node := (Node.t Point).
Local Abbreviation Move := (move.Move Point).

(** *** How each decoder can end *)

Lemma len_cons (A : Type) (a : A) (l : list A) : len (a :: l) = len l + 1.
Proof. unfold len. cbn [List.length]. lia. Qed.

Lemma len_nonneg (A : Type) (l : list A) : 0 <= len l.
Proof. unfold len. lia. Qed.

Lemma len_zero (A : Type) (l : list A) : len l = 0 -> l = [].
Proof.
  destruct l as [|a l]; [reflexivity|].
  rewrite len_cons. pose proof (len_nonneg A l). lia.
Qed.

Lemma len_one (A : Type) (l : list A) : len l = 1 -> exists a, l = [a].
Proof.
  destruct l as [|a l]; [discriminate|]. rewrite len_cons. intros H.
  exists a. f_equal. apply len_zero. lia.
Qed.

(** Assigning a field of GameInfo right after the "create if absent" step
    never meets a nil pointer. *)
Lemma assign_ensure_GameInfo (n : Node) (f : GameInfo.t -> GameInfo.t) :
  prop.assign_GameInfo (prop.ensure_GameInfo n) f =
    (Returns None,
     Node.mk (Some (f (match Node.GameInfo n with
                       | Some gi => gi
                       | None => GameInfo.zero
                       end)))
             (Node.Move n) (Node.Placements n)).
Proof.
  unfold prop.assign_GameInfo, prop.ensure_GameInfo.
  destruct (Node.GameInfo n) eqn:E; simpl; rewrite ?E; reflexivity.
Qed.

(** [SZ From] succeeds only by storing a size, and whether it succeeds does
    not depend on the node. *)
Lemma SZ_From_success (n n' : Node) (prop : string) (data : list string) :
  prop.SZ_From n prop data = (Returns None, n') ->
  exists v sz,
    data = [v] /\ strconv.Atoi v = (sz, None) /\ 1 <= sz <= 25 /\
    n' = prop.with_Size n sz /\
    forall m : Node, prop.SZ_From m prop data = (Returns None, prop.with_Size m sz).
Proof.
  intros H. unfold prop.SZ_From in H. cbv zeta in H.
  destruct (Z.eqb_spec (len data) 1) as [Hlen|Hlen]; [|discriminate].
  destruct (len_one _ data Hlen) as [v ->]. cbn [negb] in H. cbv iota in H.
  rewrite index_singleton in H.
  destruct (strconv.Atoi v) as [sz [e|]] eqn:Hv; [discriminate|].
  destruct ((sz <? 1) || (sz >? 25)) eqn:Hr; [discriminate|].
  apply orb_false_iff in Hr as [H1 H2].
  apply Z.ltb_ge in H1. rewrite Z.gtb_ltb in H2. apply Z.ltb_ge in H2.
  rewrite assign_ensure_GameInfo in H. injection H as <-.
  exists v, sz. repeat split; trivial; try lia.
  intros m. apply SZ_From_accepts; [exact Hv | lia].
Qed.


Lemma KM_From_success (n n' : Node) (prop : string) (data : list string) :
  prop.KM_From n prop data = (Returns None, n') ->
  exists v rest komi,
    data = v :: rest /\ strconv.ParseFloat v = (komi, None) /\
    prop.komi_fraction_ok komi = true /\
    n' = prop.with_Komi n komi /\
    forall m : Node, prop.KM_From m prop data = (Returns None, prop.with_Komi m komi).
Proof.
  intros H. destruct data as [|v rest]; [discriminate|].
  unfold prop.KM_From in H. cbn [index nth_error] in H.
  destruct (strconv.ParseFloat v) as [komi [e|]] eqn:Hv; [discriminate|].
  destruct (prop.komi_fraction_ok komi) eqn:Hok; [|discriminate].
  cbn [negb] in H. cbv iota in H.
  rewrite assign_ensure_GameInfo in H. injection H as <-.
  exists v, rest, komi.
  split; [reflexivity|]. split; [exact Hv|]. split; [exact Hok|].
  split; [reflexivity|].
  intros m. unfold prop.KM_From. cbn [index nth_error]. rewrite Hv, Hok.
  cbn [negb]. cbv iota. apply assign_ensure_GameInfo.
Qed.

Lemma KM_From_outcome (n : Node) (prop : string) (data : list string) :
  (data = [] /\ prop.KM_From n prop data = (Panics (IndexOutOfRange 0 0), n)) \/
  (data <> [] /\ exists e, prop.KM_From n prop data = (Returns (Some e), n)) \/
  (data <> [] /\
   exists komi, prop.KM_From n prop data = (Returns None, prop.with_Komi n komi)).
Proof.
  destruct data as [|v rest]; [left; now split|right].
  unfold prop.KM_From. cbn [index nth_error].
  destruct (strconv.ParseFloat v) as [komi [e|]] eqn:Hv;
    [left; split; [discriminate | eexists; reflexivity]|].
  destruct (prop.komi_fraction_ok komi) eqn:Hok; cbn [negb]; cbv iota.
  - right. split; [discriminate|]. exists komi. apply assign_ensure_GameInfo.
  - left. split; [discriminate | eexists; reflexivity].
Qed.

Lemma PL_From_accepts (n : Node) (prop v : string) (c : color.Color) :
  ((v = "B" \/ v = "b") /\ c = color.Black) \/
  ((v = "W" \/ v = "w") /\ c = color.White) ->
  prop.PL_From n prop [v] = (Returns None, prop.with_Player n c).
Proof.
  intros H. unfold prop.PL_From. rewrite len_singleton, index_singleton.
  cbn [negb]. cbv iota zeta.
  destruct H as [[[-> | ->] ->] | [[-> | ->] ->]]; cbn [String.eqb Ascii.eqb
    Bool.eqb orb]; cbv iota; apply assign_ensure_GameInfo.
Qed.

Lemma PL_From_success (n n' : Node) (prop : string) (data : list string) :
  prop.PL_From n prop data = (Returns None, n') ->
  exists v c,
    data = [v] /\
    (((v = "B" \/ v = "b") /\ c = color.Black) \/
     ((v = "W" \/ v = "w") /\ c = color.White)) /\
    n' = prop.with_Player n c /\
    forall m : Node, prop.PL_From m prop data = (Returns None, prop.with_Player m c).
Proof.
  intros H.
  assert (Hlen : len data = 1).
  { unfold prop.PL_From in H.
    destruct (Z.eqb_spec (len data) 1); [assumption | discriminate]. }
  destruct (len_one _ data Hlen) as [v ->].
  assert (Hc : exists c,
            ((v = "B" \/ v = "b") /\ c = color.Black) \/
            ((v = "W" \/ v = "w") /\ c = color.White)).
  { unfold prop.PL_From in H. rewrite len_singleton, index_singleton in H.
    cbn [negb] in H. cbv iota zeta in H.
    destruct (String.eqb_spec v "B"); [exists color.Black; auto|].
    destruct (String.eqb_spec v "b"); [exists color.Black; auto|].
    destruct (String.eqb_spec v "W"); [exists color.White; auto|].
    destruct (String.eqb_spec v "w"); [exists color.White; auto|].
    discriminate. }
  destruct Hc as [c Hc]. exists v, c.
  split; [reflexivity|]. split; [exact Hc|]. split.
  - rewrite (PL_From_accepts n prop v c Hc) in H. now injection H as <-.
  - intros m. now apply PL_From_accepts.
Qed.

Lemma PL_From_outcome (n : Node) (prop : string) (data : list string) :
  (len data <> 1 /\
   prop.PL_From n prop data = (Returns (Some (prop.PL_arity_error (len data))), n)) \/
  (exists v, data = [v] /\
     prop.PL_From n prop data =
       (Returns (Some (prop.PL_value_error v)), prop.ensure_GameInfo n)) \/
  (exists c, prop.PL_From n prop data = (Returns None, prop.with_Player n c)).
Proof.
  unfold prop.PL_From.
  destruct (Z.eqb_spec (len data) 1) as [Hlen|Hlen]; [|left; now split].
  right. destruct (len_one _ data Hlen) as [v ->]. cbn [negb]. cbv iota zeta.
  rewrite index_singleton.
  destruct ((v =? "B")%string || (v =? "b")%string);
    [right; eexists; apply assign_ensure_GameInfo|].
  destruct ((v =? "W")%string || (v =? "w")%string);
    [right; eexists; apply assign_ensure_GameInfo|].
  left. exists v. now split.
Qed.

Lemma AB_AW_From_outcome (n : Node) (prop : string) (data : list string) :
  (exists e, prop.AB_AW_From NewFromSGF n prop data = (Returns (Some e), n)) \/
  (exists moves,
     prop.AB_AW_From NewFromSGF n prop data =
       (Returns None,
        Node.mk (Node.GameInfo n) (Node.Move n) (Node.Placements n ++ moves)%list)).
Proof.
  unfold prop.AB_AW_From.
  destruct (color.FromSGFProp prop) as [col [e|]]; [left; eexists; reflexivity|].
  destruct (move.ListFromSGFPoints NewFromSGF col data) as [moves [e|]];
    [left; eexists; reflexivity|].
  right. exists moves. reflexivity.
Qed.

Lemma AB_AW_From_success (n n' : Node) (prop : string) (data : list string) :
  prop.AB_AW_From NewFromSGF n prop data = (Returns None, n') ->
  exists moves,
    n' = Node.mk (Node.GameInfo n) (Node.Move n) (Node.Placements n ++ moves)%list /\
    forall m : Node,
      prop.AB_AW_From NewFromSGF m prop data =
        (Returns None,
         Node.mk (Node.GameInfo m) (Node.Move m) (Node.Placements m ++ moves)%list).
Proof.
  intros H. destruct (AB_AW_From_inv NewFromSGF n n' prop data H)
    as (col & moves & Hc & Hm & ->).
  exists moves. split; [reflexivity|]. intros m.
  now apply AB_AW_From_ok with col.
Qed.

(** [B/W From] ends with an error that leaves the node as it was or, on a
    node without a move, by storing a move that does not depend on the
    node. *)
Lemma B_W_From_outcome (n : Node) (prop : string) (data : list string) :
  (exists e, prop.B_W_From NewFromSGF n prop data = (Returns (Some e), n)) \/
  (Node.Move n = None /\
   exists mv,
     forall m : Node, Node.Move m = None ->
       prop.B_W_From NewFromSGF m prop data =
         (Returns None, Node.mk (Node.GameInfo m) mv (Node.Placements m))).
Proof.
  unfold prop.B_W_From.
  destruct (color.FromSGFProp prop) as [col [e|]]; [left; eexists; reflexivity|].
  destruct (Node.Move n) as [mv0|] eqn:Hmv; [left; eexists; reflexivity|].
  destruct data as [|v [|v' rest]].
  - cbn [len List.length Z.of_nat Z.eqb negb andb index nth_error].
    destruct (move.FromSGFPoint NewFromSGF col "") as [mv [e|]] eqn:E;
      [left; eexists; reflexivity|].
    right. split; [reflexivity|]. exists mv. intros m ->. reflexivity.
  - rewrite len_singleton. cbn [Z.eqb Pos.eqb negb andb index nth_error].
    destruct (move.FromSGFPoint NewFromSGF col v) as [mv [e|]] eqn:E;
      [left; eexists; reflexivity|].
    right. split; [reflexivity|]. exists mv. intros m ->. reflexivity.
  - left. rewrite !len_cons.
    pose proof (len_nonneg _ rest) as Hr.
    replace (len rest + 1 + 1 =? 1) with false
      by (symmetry; apply Z.eqb_neq; lia).
    replace (len rest + 1 + 1 =? 0) with false
      by (symmetry; apply Z.eqb_neq; lia).
    eexists. reflexivity.
Qed.

Lemma B_W_From_success (n n' : Node) (prop : string) (data : list string) :
  prop.B_W_From NewFromSGF n prop data = (Returns None, n') ->
  Node.Move n = None /\
  exists mv,
    n' = Node.mk (Node.GameInfo n) mv (Node.Placements n) /\
    forall m : Node, Node.Move m = None ->
      prop.B_W_From NewFromSGF m prop data =
        (Returns None, Node.mk (Node.GameInfo m) mv (Node.Placements m)).
Proof.
  intros H.
  destruct (B_W_From_outcome n prop data) as [[e He]|[Hmv [mv Hall]]].
  - rewrite He in H. discriminate.
  - split; [exact Hmv|]. exists mv. split; [|exact Hall].
    rewrite (Hall n Hmv) in H. now injection H as <-.
Qed.

(** *** Panics and errors *)


(** X2: an error of the placement, move or komi decoder leaves the node as
    it was.  An error of the player-to-move decoder leaves it as it was as
    well, unless the node had no GameInfo and the error is the one about the
    value: then the node has gained an empty GameInfo and nothing else. *)
Theorem From_error_leaves_node (n n' : Node) (prop : string)
    (data : list string) (e : error) :
  (prop.AB_AW_From NewFromSGF n prop data = (Returns (Some e), n') -> n' = n) /\
  (prop.B_W_From NewFromSGF n prop data = (Returns (Some e), n') -> n' = n) /\
  (prop.KM_From n prop data = (Returns (Some e), n') -> n' = n) /\
  (prop.PL_From n prop data = (Returns (Some e), n') ->
     n' = n \/
     (Node.GameInfo n = None /\
      (exists v, data = [v] /\ e = prop.PL_value_error v) /\
      n' = Node.mk (Some GameInfo.zero) (Node.Move n) (Node.Placements n))).
Proof.
  split; [|split; [|split]]; intros H.
  - destruct (AB_AW_From_outcome n prop data) as [[e' He]|[moves He]];
      rewrite He in H; congruence.
  - destruct (B_W_From_outcome n prop data) as [[e' He]|[Hmv [mv He]]].
    + rewrite He in H. congruence.
    + rewrite (He n Hmv) in H. discriminate.
  - destruct (KM_From_outcome n prop data)
      as [[_ He]|[[_ [e' He]]|[_ [komi He]]]];
      rewrite He in H; congruence.
  - destruct (PL_From_outcome n prop data)
      as [[_ He]|[(v & Hd & He)|[c He]]]; rewrite He in H.
    + left. congruence.
    + injection H as <- <-. unfold prop.ensure_GameInfo.
      destruct (Node.GameInfo n) eqn:Hgi; [now left|right].
      split; [reflexivity|]. split; [|reflexivity]. now exists v.
    + discriminate.
Qed.

(** *** Converters of different properties do not interfere *)








(** Replaces a successful decode by what it stored, keeping the fact that the
    same decode succeeds in the same way on the other nodes. *)
Ltac use_success H :=
  first
    [ apply SZ_From_success in H as (? & ? & _ & _ & _ & -> & H)
    | apply KM_From_success in H as (? & ? & ? & _ & _ & _ & -> & H)
    | apply PL_From_success in H as (? & ? & _ & _ & -> & H)
    | apply AB_AW_From_success in H as (? & -> & H)
    | apply B_W_From_success in H as (? & ? & -> & H) ].

(** X4: two successful decodes by converters of different properties can be
    made in either order: the second succeeds on the original node as well,
    the first succeeds on the node that leaves, and the final node is the
    same. *)
Theorem decodes_of_different_converters_commute (c1 c2 : prop.SGFConverter)
    (n n1 n2 : Node) (p1 p2 : string) (d1 d2 : list string) :
  In c1 (prop.converters NewFromSGF ToSGF) ->
  In c2 (prop.converters NewFromSGF ToSGF) ->
  prop.Props c1 <> prop.Props c2 ->
  prop.From c1 n p1 d1 = (Returns None, n1) ->
  prop.From c2 n1 p2 d2 = (Returns None, n2) ->
  exists n1',
    prop.From c2 n p2 d2 = (Returns None, n1') /\
    prop.From c1 n1' p1 d1 = (Returns None, n2).
Proof.
  intros H1 H2 Hne F1 F2. cbn [prop.converters In] in H1, H2.
  destruct H1 as [<-|[<-|[<-|[<-|[<-|[]]]]]];
    destruct H2 as [<-|[<-|[<-|[<-|[<-|[]]]]]];
    cbn [prop.From prop.To prop.Props] in *;
    try (exfalso; apply Hne; reflexivity);
    use_success F1; use_success F2;
    (eexists; split;
     [ apply F2; assumption
     | rewrite F1 by assumption;
       destruct n as [[gi|] mv ps]; reflexivity ]).
Qed.

(** X5: a root property decoded twice keeps the value decoded last: when two
    decodes of SZ (of KM, of PL) succeed one after the other, the node is the
    one the second decode alone would have given.  No error reports the
    repetition. *)
Theorem repeated_root_property_overrides (n n1 n2 : Node) (p1 p2 : string)
    (d1 d2 : list string) :
  (prop.SZ_From n p1 d1 = (Returns None, n1) ->
   prop.SZ_From n1 p2 d2 = (Returns None, n2) ->
   prop.SZ_From n p2 d2 = (Returns None, n2)) /\
  (prop.KM_From n p1 d1 = (Returns None, n1) ->
   prop.KM_From n1 p2 d2 = (Returns None, n2) ->
   prop.KM_From n p2 d2 = (Returns None, n2)) /\
  (prop.PL_From n p1 d1 = (Returns None, n1) ->
   prop.PL_From n1 p2 d2 = (Returns None, n2) ->
   prop.PL_From n p2 d2 = (Returns None, n2)).
Proof.
  split; [|split]; intros F1 F2; use_success F1; use_success F2;
    rewrite F2; destruct n as [[gi|] mv ps]; reflexivity.
Qed.

(** *** Board size and player to move: reading back what was written *)

(** X6: the board-size encoder writes nothing for the size 0, SZ[v] for a
    size from 1 to 25 and returns its error for every other size; the raw
    value v it writes is accepted by the decoder, on any node and under any
    property name, and read as the size that was encoded. *)
Theorem SZ_To_reads_back (n : Node) (gi : GameInfo.t) :
  Node.GameInfo n = Some gi ->
  let sz := GameInfo.Size gi in
  (sz = 0 /\ prop.SZ_To n = Returns ("", None)) \/
  (1 <= sz <= 25 /\
   prop.SZ_To n = Returns ("SZ[" ++ strconv.Itoa sz ++ "]", None) /\
   forall (m : Node) (prop : string),
     prop.SZ_From m prop [strconv.Itoa sz] = (Returns None, prop.with_Size m sz)) \/
  ((sz < 0 \/ 25 < sz) /\
   prop.SZ_To n = Returns ("", Some (prop.SZ_invalid_size_error sz))).
Proof.
  intros Hgi sz. unfold prop.SZ_To. rewrite Hgi. cbv zeta. fold sz.
  destruct (Z.eqb_spec sz 0) as [E|E]; [left; now split|right].
  destruct ((sz <? 1) || (sz >? 25)) eqn:Hr.
  - right. split; [|reflexivity].
    apply orb_true_iff in Hr as [H|H];
      [apply Z.ltb_lt in H | rewrite Z.gtb_ltb in H; apply Z.ltb_lt in H]; lia.
  - left. apply orb_false_iff in Hr as [H1 H2].
    apply Z.ltb_ge in H1. rewrite Z.gtb_ltb in H2. apply Z.ltb_ge in H2.
    split; [lia|]. split; [reflexivity|].
    intros m prop. apply SZ_From_accepts; [|lia].
    apply Atoi_Itoa. unfold strconv.minInt, strconv.maxInt. lia.
Qed.

(** X7: the player-to-move decoder accepts B, b, W and w, on any node and
    under any property name, and the node it leaves encodes to PL[B] for the
    first two and to PL[W] for the other two: the lower-case spellings are
    not written back. *)
Theorem PL_round_trip (n : Node) (prop v : string) (c : color.Color) :
  ((v = "B" \/ v = "b") /\ c = color.Black) \/
  ((v = "W" \/ v = "w") /\ c = color.White) ->
  prop.PL_From n prop [v] = (Returns None, prop.with_Player n c) /\
  prop.PL_To (prop.with_Player n c) = Returns ("PL[" ++ c ++ "]", None).
Proof.
  intros H. split; [now apply PL_From_accepts|].
  destruct H as [[_ ->] | [_ ->]]; reflexivity.
Qed.

(** X8: the player-to-move encoder writes nothing for the empty player,
    PL[W] or PL[B] for these two, and returns its error for every other
    player; what it writes, the decoder reads back as the same player. *)
Theorem PL_To_reads_back (n : Node) (gi : GameInfo.t) :
  Node.GameInfo n = Some gi ->
  let player := GameInfo.Player gi in
  (player = "" /\ prop.PL_To n = Returns ("", None)) \/
  ((player = "W" \/ player = "B") /\
   prop.PL_To n = Returns ("PL[" ++ player ++ "]", None) /\
   forall (m : Node) (prop : string),
     prop.PL_From m prop [player] = (Returns None, prop.with_Player m player)) \/
  (player <> "" /\ player <> "W" /\ player <> "B" /\
   prop.PL_To n = Returns ("", Some (prop.PL_invalid_player_error player))).
Proof.
  intros Hgi player. unfold prop.PL_To. rewrite Hgi. cbv zeta. fold player.
  destruct (String.eqb_spec player "") as [E|E]; [left; now split|right].
  destruct (String.eqb_spec player "W") as [EW|EW].
  { left. split; [now left|]. split; [reflexivity|]. intros m prop.
    apply PL_From_accepts. right. rewrite EW. now split; [left|]. }
  destruct (String.eqb_spec player "B") as [EB|EB].
  { left. split; [now right|]. split; [reflexivity|]. intros m prop.
    apply PL_From_accepts. left. rewrite EB. now split; [left|]. }
  right. now repeat split.
Qed.

(** *** Moves: round trips through the point codec *)

(** What [B/W From] stores for a raw value the point codec reads. *)
Lemma B_W_From_point (n : Node) (col v : string) (pt : Point) :
  Node.Move n = None ->
  col = color.Black \/ col = color.White ->
  v <> "" ->
  NewFromSGF v = inl pt ->
  prop.B_W_From NewFromSGF n col [v] =
    (Returns None,
     Node.mk (Node.GameInfo n) (Some (move.New col (Some pt)))
             (Node.Placements n)).
Proof.
  intros Hmv Hcol Hv Hread. apply String.eqb_neq in Hv.
  assert (Hfrom : move.FromSGFPoint NewFromSGF col v =
                    (Some (move.New col (Some pt)), None))
    by (unfold move.FromSGFPoint; now rewrite Hv, Hread).
  unfold prop.B_W_From. rewrite Hmv.
  rewrite len_singleton. cbn [Z.eqb Pos.eqb negb andb]. cbv iota.
  rewrite index_singleton.
  destruct Hcol as [-> | ->].
  - change (color.FromSGFProp color.Black) with (color.Black, @None error).
    cbv iota. now rewrite Hfrom.
  - change (color.FromSGFProp color.White) with (color.White, @None error).
    cbv iota. now rewrite Hfrom.
Qed.

(** X9: with a point codec that reads the raw value v as a point and writes
    that point as v again, decoding B or W with the one value v on a node
    without a move stores the move of that colour at that point and touches
    nothing else, and encoding the node gives the property back. *)
Theorem B_W_point_round_trip (n : Node) (prop v : string) (pt : Point) :
  Node.Move n = None ->
  prop = "B" \/ prop = "W" ->
  v <> "" ->
  NewFromSGF v = inl pt ->
  ToSGF (Some pt) = Returns (v, None) ->
  let n' := Node.mk (Node.GameInfo n) (Some (move.New prop (Some pt)))
                    (Node.Placements n) in
  prop.B_W_From NewFromSGF n prop [v] = (Returns None, n') /\
  prop.B_W_To ToSGF n' = Returns (prop ++ "[" ++ v ++ "]", None).
Proof.
  intros Hmv Hprop Hv Hread Hwrite n'. subst n'. split.
  - now apply B_W_From_point.
  - unfold prop.B_W_To. cbn [Node.Move move.IsPass move.Point_]. cbv zeta iota.
    rewrite Hwrite. cbn [bind].
    destruct Hprop as [-> | ->]; reflexivity.
Qed.

(** X10: a move of Black or of White that a node holds is encoded as the
    colour letter followed by one bracketed value: the empty one for a pass,
    for which the point codec is not called, and otherwise what the codec
    writes for the point.  When the codec reads that value back as the
    point, decoding it under the colour letter on a node without a move
    stores the same move. *)
Theorem B_W_To_reads_back (n : Node) (mv : Move) :
  Node.Move n = Some mv ->
  move.Color mv = color.Black \/ move.Color mv = color.White ->
  (forall pt, move.Point_ mv = Some pt ->
     exists s, s <> "" /\ ToSGF (Some pt) = Returns (s, None) /\
               NewFromSGF s = inl pt) ->
  exists v,
    prop.B_W_To ToSGF n = Returns (move.Color mv ++ "[" ++ v ++ "]", None) /\
    (move.Point_ mv = None -> v = "") /\
    forall m : Node, Node.Move m = None ->
      prop.B_W_From NewFromSGF m (move.Color mv) [v] =
        (Returns None, Node.mk (Node.GameInfo m) (Some mv) (Node.Placements m)).
Proof.
  intros Hmv Hcol Hcodec. destruct mv as [col [pt|]]; cbn [move.Color] in *.
  - destruct (Hcodec pt eq_refl) as (s & Hs & Hwrite & Hread).
    exists s. split; [|split; [discriminate|]].
    + unfold prop.B_W_To. rewrite Hmv.
      cbn [move.IsPass move.Point_]. cbv zeta iota. rewrite Hwrite. cbn [bind].
      destruct Hcol as [-> | ->]; reflexivity.
    + intros m Hm.
      now apply B_W_From_point.
  - exists "". split; [|split; [reflexivity|]].
    + unfold prop.B_W_To. rewrite Hmv. cbn [move.IsPass move.Point_].
      cbv zeta iota. destruct Hcol as [-> | ->]; reflexivity.
    + intros m Hm. unfold prop.B_W_From. rewrite Hm, len_singleton.
      cbn [Z.eqb Pos.eqb negb andb]. cbv iota. rewrite index_singleton.
      destruct Hcol as [-> | ->]; reflexivity.
Qed.

(** *** Placements: what the encoder writes *)

Lemma len_positive (A : Type) (l : list A) :
  (len l >? 0) = negb (len l =? 0).
Proof.
  pose proof (len_nonneg A l). rewrite Z.gtb_ltb.
  destruct (Z.eqb_spec (len l) 0); cbn [negb];
    [apply Z.ltb_ge | apply Z.ltb_lt]; lia.
Qed.

(** X11: when the point codec writes every placement of the node, the
    placement encoder returns the black placements as one AB property and,
    after it, the white ones as one AW property, each group in the order of
    the node; a group without placements is left out altogether, and a
    placement that is neither black nor white is written nowhere. *)
Theorem AB_AW_To_groups (n : Node) (render : Move -> string) :
  (forall mv, In mv (Node.Placements n) ->
     ToSGF (move.Point_ mv) = Returns (render mv, None)) ->
  let black := map render (filter prop.is_black (Node.Placements n)) in
  let white := map render (filter prop.is_white (Node.Placements n)) in
  prop.AB_AW_To ToSGF n =
    Returns ((if len black >? 0 then "AB" else "") ++ prop.write_points black ++
             (if len white >? 0 then "AW" else "") ++ prop.write_points white,
             None).
Proof.
  intros Hall black white. unfold prop.AB_AW_To.
  destruct (Z.eqb_spec (len (Node.Placements n)) 0) as [Hlen|Hlen].
  - subst black white. now rewrite (len_zero _ _ Hlen).
  - now rewrite (collect_placements_rendered ToSGF render _ Hall).
Qed.

(** The loop of [AB/AW To] ends at the first placement the point codec
    does not write. *)
Lemma collect_placements_stops (pre post : list Move) (mv : Move) :
  (forall mv', In mv' pre ->
     exists s, ToSGF (move.Point_ mv') = Returns (s, None)) ->
  forall black white,
    (forall s e, ToSGF (move.Point_ mv) = Returns (s, Some e) ->
       prop.collect_placements ToSGF (pre ++ mv :: post) black white =
         Returns (inr e)) /\
    (forall p, ToSGF (move.Point_ mv) = Panics p ->
       prop.collect_placements ToSGF (pre ++ mv :: post) black white =
         Panics p).
Proof.
  induction pre as [|mv' pre IH]; intros Hall black white.
  - simpl. split; [intros s e H | intros p H]; now rewrite H.
  - destruct (Hall mv' (or_introl eq_refl)) as [s' Hs'].
    assert (Hrest : forall mv'', In mv'' pre ->
              exists s, ToSGF (move.Point_ mv'') = Returns (s, None))
      by (intros mv'' Hin; apply Hall; now right).
    simpl. rewrite Hs'. simpl.
    destruct (prop.is_black mv'); [|destruct (prop.is_white mv')];
      apply (IH Hrest).
Qed.

(** X12: when the point codec fails on a placement, and has written all the
    placements before it, the placement encoder returns that error and no
    text, and when the codec panics there the encoder panics; this holds
    whatever the colour of the placement, also for one that would not have
    been written, and whatever follows it. *)
Theorem AB_AW_To_first_failure (n : Node) (pre post : list Move) (mv : Move) :
  Node.Placements n = (pre ++ mv :: post)%list ->
  (forall mv', In mv' pre ->
     exists s, ToSGF (move.Point_ mv') = Returns (s, None)) ->
  (forall s e, ToSGF (move.Point_ mv) = Returns (s, Some e) ->
     prop.AB_AW_To ToSGF n = Returns ("", Some e)) /\
  (forall p, ToSGF (move.Point_ mv) = Panics p ->
     prop.AB_AW_To ToSGF n = Panics p).
Proof.
  intros Hn Hpre.
  assert (Hlen : (len (Node.Placements n) =? 0) = false).
  { apply Z.eqb_neq. intros H. apply len_zero in H. rewrite Hn in H.
    now destruct pre. }
  destruct (collect_placements_stops pre post mv Hpre [] []) as [Herr Hpanic].
  unfold prop.AB_AW_To. rewrite Hlen, Hn.
  split; [intros s e H; now rewrite (Herr s e H)
         | intros p H; now rewrite (Hpanic p H)].
Qed.

(** *** Placements: round trips through the point codec *)

(** What the codec writes for the point of a placement, the empty string
    where it writes nothing. *)
Local Abbreviation written :=
  (fun mv : Move =>
     match ToSGF (move.Point_ mv) with
     | Returns (s, _) => s
     | Panics _ => ""
     end).

(** Raw values that the point codec reads and writes back decode to as many
    placements of the colour asked for, which are written as the values. *)
Lemma ListFromSGFPoints_written (col : color.Color) (data : list string) :
  (forall v, In v data ->
     v <> "" /\
     exists pt, NewFromSGF v = inl pt /\ ToSGF (Some pt) = Returns (v, None)) ->
  exists moves,
    move.ListFromSGFPoints NewFromSGF col data = (moves, None) /\
    (forall mv, In mv moves ->
       move.Color mv = col /\
       ToSGF (move.Point_ mv) = Returns (written mv, None)) /\
    map written moves = data.
Proof.
  induction data as [|v data IH]; intros Hall.
  - exists []. split; [reflexivity|]. split; [intros mv []|reflexivity].
  - destruct (Hall v (or_introl eq_refl)) as (Hv & pt & Hread & Hwrite).
    destruct IH as (moves & Hm & Hmoves & Hmap);
      [intros v' Hin; apply Hall; now right|].
    exists (move.New col (Some pt) :: moves).
    apply String.eqb_neq in Hv.
    assert (Hw : written (move.New col (Some pt)) = v)
      by (cbn [move.Point_]; now rewrite Hwrite).
    split; [|split].
    + cbn [move.ListFromSGFPoints]. unfold move.FromSGFPoint.
      now rewrite Hv, Hread, Hm.
    + intros mv [<- | Hin]; [|now apply Hmoves].
      split; [reflexivity|]. rewrite Hw. exact Hwrite.
    + cbn [map]. now rewrite Hw, Hmap.
Qed.

(** Filtering a list on which the test has one outcome. *)
Lemma filter_uniform (A : Type) (test : A -> bool) (outcome : bool) (l : list A) :
  (forall a, In a l -> test a = outcome) ->
  filter test l = if outcome then l else [].
Proof.
  intros H. induction l as [|a l IH]; [now destruct outcome|].
  cbn [filter]. rewrite (H a (or_introl eq_refl)), IH
    by (intros b Hb; apply H; now right).
  now destruct outcome.
Qed.

(** X13: with a point codec that reads each of the raw values and writes it
    back, decoding AB with the values [blacks] and AW with the values
    [whites] on a node without placements, in either order, succeeds, and
    the node encodes to AB followed by the bracketed black values and AW
    followed by the bracketed white values, a property without values being
    left out. *)
Theorem AB_AW_round_trip (n : Node) (blacks whites : list string) :
  Node.Placements n = [] ->
  (forall v, In v (blacks ++ whites) ->
     v <> "" /\
     exists pt, NewFromSGF v = inl pt /\ ToSGF (Some pt) = Returns (v, None)) ->
  let frag :=
    (if len blacks >? 0 then "AB" else "") ++ prop.write_points blacks ++
    (if len whites >? 0 then "AW" else "") ++ prop.write_points whites in
  (exists n1 n2,
     prop.AB_AW_From NewFromSGF n "AB" blacks = (Returns None, n1) /\
     prop.AB_AW_From NewFromSGF n1 "AW" whites = (Returns None, n2) /\
     prop.AB_AW_To ToSGF n2 = Returns (frag, None)) /\
  (exists n1 n2,
     prop.AB_AW_From NewFromSGF n "AW" whites = (Returns None, n1) /\
     prop.AB_AW_From NewFromSGF n1 "AB" blacks = (Returns None, n2) /\
     prop.AB_AW_To ToSGF n2 = Returns (frag, None)).
Proof.
  intros Hn Hall frag.
  destruct (ListFromSGFPoints_written color.Black blacks)
    as (bm & Hb & Hbm & Hbw); [intros v Hin; apply Hall, in_or_app; now left|].
  destruct (ListFromSGFPoints_written color.White whites)
    as (wm & Hw & Hwm & Hww); [intros v Hin; apply Hall, in_or_app; now right|].
  assert (Hbb : forall mv, In mv bm -> prop.is_black mv = true)
    by (intros mv Hin; unfold prop.is_black; now rewrite (proj1 (Hbm mv Hin))).
  assert (Hbw' : forall mv, In mv bm -> prop.is_white mv = false)
    by (intros mv Hin; unfold prop.is_white; now rewrite (proj1 (Hbm mv Hin))).
  assert (Hwb : forall mv, In mv wm -> prop.is_black mv = false)
    by (intros mv Hin; unfold prop.is_black; now rewrite (proj1 (Hwm mv Hin))).
  assert (Hwwh : forall mv, In mv wm -> prop.is_white mv = true)
    by (intros mv Hin; unfold prop.is_white; now rewrite (proj1 (Hwm mv Hin))).
  assert (Hto : forall (m : Node) (ps : list Move),
            Node.Placements m = ps ->
            (forall mv, In mv ps -> In mv bm \/ In mv wm) ->
            map written (filter prop.is_black ps) = blacks ->
            map written (filter prop.is_white ps) = whites ->
            prop.AB_AW_To ToSGF m = Returns (frag, None)).
  { intros m ps Hm Hin Eb Ew. unfold prop.AB_AW_To. rewrite Hm.
    rewrite (collect_placements_rendered ToSGF written ps).
    - cbn [bind app]. rewrite Eb, Ew.
      destruct (Z.eqb_spec (len ps) 0) as [Hz|Hz]; [|reflexivity].
      apply len_zero in Hz. rewrite Hz in Eb, Ew. cbn [filter map] in Eb, Ew.
      subst frag. now rewrite <- Eb, <- Ew.
    - intros mv Hmv. destruct (Hin mv Hmv) as [H|H];
        [apply (Hbm mv H) | apply (Hwm mv H)]. }
  split.
  - eexists. eexists.
    split; [apply (AB_AW_From_ok NewFromSGF n "AB" _ color.Black _ eq_refl Hb)|].
    split; [apply (AB_AW_From_ok NewFromSGF _ "AW" _ color.White _ eq_refl Hw)|].
    apply (Hto _ (bm ++ wm)%list).
    + cbn [Node.Placements]. now rewrite Hn.
    + intros mv Hin. now apply in_app_or.
    + now rewrite filter_app, (filter_uniform _ _ true bm Hbb),
        (filter_uniform _ _ false wm Hwb), app_nil_r.
    + now rewrite filter_app, (filter_uniform _ _ false bm Hbw'),
        (filter_uniform _ _ true wm Hwwh).
  - eexists. eexists.
    split; [apply (AB_AW_From_ok NewFromSGF n "AW" _ color.White _ eq_refl Hw)|].
    split; [apply (AB_AW_From_ok NewFromSGF _ "AB" _ color.Black _ eq_refl Hb)|].
    apply (Hto _ (wm ++ bm)%list).
    + cbn [Node.Placements]. now rewrite Hn.
    + intros mv Hin. apply in_app_or in Hin. tauto.
    + now rewrite filter_app, (filter_uniform _ _ true bm Hbb),
        (filter_uniform _ _ false wm Hwb).
    + now rewrite filter_app, (filter_uniform _ _ false bm Hbw'),
        (filter_uniform _ _ true wm Hwwh), app_nil_r.
Qed.

(** *** Komi *)

(** The komi decoder stores what the komi encoder writes for a komi that
    passes the fraction test. *)
Lemma KM_From_accepts (n : Node) (prop : string) (rest : list string)
    (komi : float64) :
  f64.valid komi = true ->
  prop.komi_fraction_ok komi = true ->
  prop.KM_From n prop (strconv.FormatFloat_f komi 1 :: rest) =
    (Returns None, prop.with_Komi n komi).
Proof.
  intros Hv Hok. unfold prop.KM_From. cbn [index nth_error].
  rewrite (ParseFloat_FormatFloat_komi komi Hv Hok), Hok. cbn [negb]. cbv iota.
  apply assign_ensure_GameInfo.
Qed.

(** X14: when the komi decoder succeeds, it was given at least one raw
    value, the first of which parses to the number it stored (the values
    after the first are not looked at); that number is a float64 proper which
    is whole or a half point that is not negative, hence neither a NaN nor an
    infinity; nothing else of the node changes, the komi encoder turns the
    node into a property without error, and decoding the value of that
    property instead of the original values leaves the same node. *)
Theorem KM_From_stores_a_komi (n n' : Node) (prop : string) (data : list string) :
  prop.KM_From n prop data = (Returns None, n') ->
  exists v rest komi,
    data = v :: rest /\
    strconv.ParseFloat v = (komi, None) /\
    n' = prop.with_Komi n komi /\
    f64.valid komi = true /\
    (f64.is_whole komi = true \/
     (f64.is_half_point komi = true /\ f64.is_negative komi = false)) /\
    komi <> S754_nan /\ (forall s, komi <> S754_infinity s) /\
    prop.KM_To n' =
      Returns ("KM[" ++ strconv.FormatFloat_f komi 1 ++ "]", None) /\
    prop.KM_From n prop [strconv.FormatFloat_f komi 1] = (Returns None, n').
Proof.
  intros H.
  destruct (KM_From_success n n' prop data H)
    as (v & rest & komi & -> & Hv & Hok & -> & _).
  exists v, rest, komi.
  pose proof (ParseFloat_valid v) as Hvalid. rewrite Hv in Hvalid.
  cbn [fst] in Hvalid.
  pose proof (komi_fraction_ok_spec komi Hvalid) as Hspec.
  rewrite Hok in Hspec. symmetry in Hspec.
  apply orb_true_iff in Hspec.
  split; [reflexivity|]. split; [exact Hv|]. split; [reflexivity|].
  split; [exact Hvalid|]. split; [|split; [|split; [|split]]].
  - destruct Hspec as [Hw | Hh]; [now left | right].
    apply andb_true_iff in Hh as [Hh Hn]. apply negb_true_iff in Hn. now split.
  - intros ->. discriminate Hok.
  - intros s ->. destruct s; discriminate Hok.
  - unfold prop.KM_To, prop.with_Komi.
    cbn [Node.GameInfo prop.set_Komi GameInfo.Komi]. now rewrite Hok.
  - now apply KM_From_accepts.
Qed.

(** X15: on a node that holds a komi which is a float64 proper, the komi
    encoder writes the property when the komi is whole or a half point that
    is not negative, and returns its error for every other komi: for a
    negative half point as for a NaN or an infinity. *)
Theorem KM_To_cases (n : Node) (gi : GameInfo.t) (komi : float64) :
  Node.GameInfo n = Some gi ->
  GameInfo.Komi gi = Some komi ->
  f64.valid komi = true ->
  prop.KM_To n =
    if f64.is_whole komi ||
       (f64.is_half_point komi && negb (f64.is_negative komi))
    then Returns ("KM[" ++ strconv.FormatFloat_f komi 1 ++ "]", None)
    else Returns ("", Some (prop.KM_invalid_komi_error komi)).
Proof.
  intros Hgi Hkomi Hvalid. unfold prop.KM_To.
  rewrite Hgi, Hkomi, (komi_fraction_ok_spec komi Hvalid).
  now destruct (f64.is_whole komi || _).
Qed.

(** X16: every property the komi encoder writes for a komi that is a float64
    proper is KM[v] for the value v that [FormatFloat] gives with one
    decimal, and the komi decoder, on any node and under any property name,
    reads v back as exactly that komi. *)
Theorem KM_To_reads_back (n : Node) (gi : GameInfo.t) (komi : float64)
    (frag : string) :
  Node.GameInfo n = Some gi ->
  GameInfo.Komi gi = Some komi ->
  f64.valid komi = true ->
  prop.KM_To n = Returns (frag, None) ->
  frag = "KM[" ++ strconv.FormatFloat_f komi 1 ++ "]" /\
  strconv.ParseFloat (strconv.FormatFloat_f komi 1) = (komi, None) /\
  forall (m : Node) (prop : string),
    prop.KM_From m prop [strconv.FormatFloat_f komi 1] =
      (Returns None, prop.with_Komi m komi).
Proof.
  intros Hgi Hkomi Hv. unfold prop.KM_To. rewrite Hgi, Hkomi.
  destruct (prop.komi_fraction_ok komi) eqn:Hok; cbn [negb]; cbv iota;
    [|discriminate].
  intros [= <-]. split; [reflexivity|].
  split; [now apply ParseFloat_FormatFloat_komi|].
  intros m prop. now apply KM_From_accepts.
Qed.

(** *** Raw values beyond the first *)

(** X17: given two raw values or more, the decoders of SZ and PL return
    their arity errors and the decoder of B and W, on a node without a move,
    returns its own; the komi decoder does not look at the number of values
    and does what it does with the first value alone. *)
Theorem From_with_surplus_values (n : Node) (prop v1 v2 : string)
    (rest : list string) :
  let data := v1 :: v2 :: rest in
  prop.SZ_From n prop data =
    (Returns (Some (prop.SZ_arity_error prop (len data))), n) /\
  prop.PL_From n prop data =
    (Returns (Some (prop.PL_arity_error (len data))), n) /\
  (Node.Move n = None -> prop = "B" \/ prop = "W" ->
   prop.B_W_From NewFromSGF n prop data =
     (Returns (Some prop.move_arity_error), n)) /\
  prop.KM_From n prop data = prop.KM_From n prop [v1].
Proof.
  intros data.
  assert (Hlen : 2 <= len data)
    by (subst data; rewrite !len_cons; pose proof (len_nonneg _ rest); lia).
  assert (H1 : (len data =? 1) = false) by (apply Z.eqb_neq; lia).
  assert (H0 : (len data =? 0) = false) by (apply Z.eqb_neq; lia).
  split; [|split; [|split]]; trivial.
  - unfold prop.SZ_From. cbv zeta. now rewrite H1.
  - unfold prop.PL_From. now rewrite H1.
  - intros Hmv Hprop. unfold prop.B_W_From. rewrite Hmv, H1, H0.
    destruct Hprop as [-> | ->]; reflexivity.
Qed.

(** *** The map from property code to converter *)

Lemma lookup_register (mp : prop.registry) (c : prop.SGFConverter (Point := Point))
    (p : string) :
  prop.lookup (prop.register mp c) p =
    if existsb (String.eqb p) (prop.Props c) then Some c else prop.lookup mp p.
Proof.
  unfold prop.register. revert mp.
  induction (prop.Props c) as [|q qs IH]; intros mp; cbn [fold_left existsb];
    [reflexivity|].
  rewrite IH. cbn [prop.lookup].
  destruct (existsb (String.eqb p) qs); [now rewrite orb_true_r|].
  rewrite orb_false_r. reflexivity.
Qed.

Lemma find_last (A : Type) (f : A -> bool) (l : list A) (a : A) :
  find f (l ++ [a]) =
    match find f l with
    | Some b => Some b
    | None => if f a then Some a else None
    end.
Proof.
  induction l as [|b l IH]; simpl; [reflexivity|].
  now destruct (f b).
Qed.

Lemma lookup_registered (conv : list (prop.SGFConverter (Point := Point)))
    (p : string) :
  forall mp : prop.registry,
    prop.lookup (fold_left prop.register conv mp) p =
      match find (fun c => existsb (String.eqb p) (prop.Props c)) (List.rev conv) with
      | Some c => Some c
      | None => prop.lookup mp p
      end.
Proof.
  induction conv as [|c conv IH]; intros mp; cbn [fold_left List.rev];
    [reflexivity|].
  rewrite IH, find_last, lookup_register.
  destruct (find _ (List.rev conv)); [reflexivity|].
  now destruct (existsb (String.eqb p) (prop.Props c)).
Qed.

(** X18: the map built from a table of converters sends a code to the last
    converter of the table that lists the code among its properties, and
    knows no code that none of them lists; the package's map is the one
    built from its table. *)
Theorem registry_keeps_last_converter
    (conv : list (prop.SGFConverter (Point := Point))) (p : string) :
  prop.lookup (fold_left prop.register conv []) p =
    find (fun c => existsb (String.eqb p) (prop.Props c)) (List.rev conv) /\
  prop.lookup (prop.propToConv NewFromSGF ToSGF) p =
    find (fun c => existsb (String.eqb p) (prop.Props c))
         (List.rev (prop.converters NewFromSGF ToSGF)).
Proof.
  split.
  - rewrite lookup_registered. now destruct (find _ (List.rev conv)).
  - unfold prop.propToConv. rewrite lookup_registered.
    now destruct (find _ (List.rev _)).
Qed.

(** X19: the package's map knows a code exactly when a converter of the
    table lists it, and then gives that converter: the codes are SZ, AB, AW,
    B, W, KM and PL, every other code is missing, and the codes whose
    converter declares the root scope are SZ, KM and PL. *)
Theorem propToConv_lookup (p : string) :
  (forall c : prop.SGFConverter,
     prop.lookup (prop.propToConv NewFromSGF ToSGF) p = Some c <->
     In c (prop.converters NewFromSGF ToSGF) /\ In p (prop.Props c)) /\
  (prop.lookup (prop.propToConv NewFromSGF ToSGF) p = None <->
   ~ In p ["SZ"; "AB"; "AW"; "B"; "W"; "KM"; "PL"]) /\
  (forall c : prop.SGFConverter,
     prop.lookup (prop.propToConv NewFromSGF ToSGF) p = Some c ->
     (prop.Scope_ c = prop.RootScope <-> In p ["SZ"; "KM"; "PL"])).
Proof.
  split; [|split].
  - intros c. split; [apply propToConv_sound|].
    intros [Hc Hp]. cbn [prop.converters In] in Hc.
    destruct Hc as [<-|[<-|[<-|[<-|[<-|[]]]]]]; cbn [prop.Props In] in Hp;
      repeat destruct Hp as [<- | Hp]; try contradiction; reflexivity.
  - split.
    + intros H Hin. cbn [In] in Hin.
      repeat destruct Hin as [<- | Hin]; try contradiction; discriminate H.
    + intros Hnot.
      cbn [prop.propToConv prop.converters prop.register prop.Props fold_left
           prop.lookup].
      repeat match goal with
      | |- context [String.eqb p ?q] =>
          destruct (String.eqb_spec p q) as [-> | _];
          [exfalso; apply Hnot; cbn [In]; tauto|]
      end.
      reflexivity.
  - intros c H. apply propToConv_sound in H as [Hc Hp].
    cbn [prop.converters In] in Hc.
    destruct Hc as [<-|[<-|[<-|[<-|[<-|[]]]]]]; cbn [prop.Props In] in Hp;
      repeat destruct Hp as [<- | Hp]; try contradiction;
      cbn [prop.Scope_ In]; split; intros H;
      try discriminate H; try reflexivity; auto;
      repeat destruct H as [H | H]; try discriminate H; try contradiction.
Qed.

End FurtherProperties.

(** ** The further properties at concrete inputs *)

Section FurtherInstances.

Local Abbreviation Node := (Node.t sgfpoint.Point).
Local Abbreviation fresh := (Node.fresh (Point := sgfpoint.Point)).

Local Abbreviation converters :=
  (prop.converters sgfpoint.NewFromSGF sgfpoint.ToSGF).

(** The float64 values 6.5 and -6.5. *)
Local Abbreviation komi_6_5 := (S754_finite false 7318349394477056 (-50)).
Local Abbreviation komi_minus_6_5 := (S754_finite true 7318349394477056 (-50)).

(** A node whose GameInfo holds the given size, komi and player. *)
Local Abbreviation with_info :=
  (fun sz komi player =>
     Node.mk (Point := sgfpoint.Point)
       (Some (GameInfo.mk sz komi player)) None []).

(** The table's converters of SZ, of KM and of PL. *)
Local Abbreviation SZ_converter :=
  {| prop.Props := ["SZ"]; prop.Scope_ := prop.RootScope;
     prop.From := prop.SZ_From (Point := sgfpoint.Point);
     prop.To := prop.SZ_To |}.
Local Abbreviation KM_converter :=
  {| prop.Props := ["KM"]; prop.Scope_ := prop.RootScope;
     prop.From := prop.KM_From (Point := sgfpoint.Point);
     prop.To := prop.KM_To |}.
Local Abbreviation PL_converter :=
  {| prop.Props := ["PL"]; prop.Scope_ := prop.RootScope;
     prop.From := prop.PL_From (Point := sgfpoint.Point);
     prop.To := prop.PL_To |}.

Lemma From_error_leaves_node_witness :
  Node.mk (Some GameInfo.zero) None [] = fresh \/
  (Node.GameInfo fresh = None /\
   (exists v, ["x"] = [v] /\ prop.PL_value_error "x" = prop.PL_value_error v) /\
   Node.mk (Some GameInfo.zero) None [] =
     Node.mk (Some GameInfo.zero) (Node.Move fresh) (Node.Placements fresh)).
Proof.
  destruct (From_error_leaves_node sgfpoint.NewFromSGF fresh
              (Node.mk (Some GameInfo.zero) None []) "PL" ["x"]
              (prop.PL_value_error "x")) as (_ & _ & _ & H).
  apply H. reflexivity.
Defined.


Lemma decodes_of_different_converters_commute_witness :
  exists n1' : Node,
    prop.KM_From fresh "KM" ["6.5"] = (Returns None, n1') /\
    prop.SZ_From n1' "SZ" ["19"] =
      (Returns None, with_info 19 (Some komi_6_5) "").
Proof.
  apply (decodes_of_different_converters_commute
           sgfpoint.NewFromSGF sgfpoint.ToSGF SZ_converter KM_converter
           fresh (with_info 19 None "") (with_info 19 (Some komi_6_5) "")
           "SZ" "KM" ["19"] ["6.5"]).
  - simpl. tauto.
  - simpl. tauto.
  - discriminate.
  - reflexivity.
  - reflexivity.
Defined.

Lemma repeated_root_property_overrides_witness :
  prop.SZ_From fresh "SZ" ["9"] = (Returns None, with_info 9 None "").
Proof.
  apply (proj1 (repeated_root_property_overrides fresh (with_info 19 None "")
                  (with_info 9 None "") "SZ" "SZ" ["19"] ["9"]));
    reflexivity.
Defined.

Lemma SZ_To_reads_back_witness :
  prop.SZ_To (with_info 19 None "") = Returns ("SZ[19]", None) /\
  forall (m : Node) (prop : string),
    prop.SZ_From m prop ["19"] = (Returns None, prop.with_Size m 19).
Proof.
  destruct (SZ_To_reads_back (with_info 19 None "") _ eq_refl)
    as [[H _]|[(_ & Hto & Hfrom)|[[H|H] _]]];
    [discriminate H | split; [exact Hto | exact Hfrom]
    | discriminate H | discriminate H].
Defined.

Lemma PL_round_trip_witness :
  prop.PL_From fresh "PL" ["b"] = (Returns None, with_info 0 None "B") /\
  prop.PL_To (with_info 0 None "B") = Returns ("PL[B]", None).
Proof.
  apply (PL_round_trip fresh "PL" "b" color.Black).
  left. split; [right|]; reflexivity.
Defined.

Lemma PL_To_reads_back_witness :
  prop.PL_To (with_info 19 None "b") =
    Returns ("", Some (prop.PL_invalid_player_error "b")).
Proof.
  destruct (PL_To_reads_back (with_info 19 None "b") _ eq_refl)
    as [[H _]|[[[H|H] _]|(_ & _ & _ & H)]];
    [discriminate H | discriminate H | discriminate H | exact H].
Defined.

Lemma B_W_point_round_trip_witness :
  prop.B_W_From sgfpoint.NewFromSGF fresh "W" ["dp"] =
    (Returns None,
     Node.mk None (Some (move.New "W" (Some (sgfpoint.mk 3 15)))) []) /\
  prop.B_W_To sgfpoint.ToSGF
    (Node.mk None (Some (move.New "W" (Some (sgfpoint.mk 3 15)))) []) =
    Returns ("W[dp]", None).
Proof.
  apply (B_W_point_round_trip sgfpoint.NewFromSGF sgfpoint.ToSGF fresh "W" "dp"
           (sgfpoint.mk 3 15)).
  - reflexivity.
  - right. reflexivity.
  - discriminate.
  - reflexivity.
  - reflexivity.
Defined.

Lemma B_W_To_reads_back_witness :
  exists v,
    prop.B_W_To sgfpoint.ToSGF
      (Node.mk None (Some (move.New color.Black (Some (sgfpoint.mk 3 3)))) []) =
      Returns (color.Black ++ "[" ++ v ++ "]", None) /\
    (Some (sgfpoint.mk 3 3) = None -> v = "") /\
    forall m : Node, Node.Move m = None ->
      prop.B_W_From sgfpoint.NewFromSGF m color.Black [v] =
        (Returns None,
         Node.mk (Node.GameInfo m)
           (Some (move.New color.Black (Some (sgfpoint.mk 3 3))))
           (Node.Placements m)).
Proof.
  apply (B_W_To_reads_back sgfpoint.NewFromSGF sgfpoint.ToSGF
           (Node.mk None (Some (move.New color.Black (Some (sgfpoint.mk 3 3)))) [])
           (move.New color.Black (Some (sgfpoint.mk 3 3)))).
  - reflexivity.
  - left. reflexivity.
  - intros pt [= <-]. exists "dd".
    split; [discriminate|]. split; reflexivity.
Defined.

(** What the sample codec writes for the point of a placement. *)
Local Abbreviation sample_written :=
  (fun mv : move.Move sgfpoint.Point =>
     match sgfpoint.ToSGF (move.Point_ mv) with
     | Returns (s, _) => s
     | Panics _ => ""
     end).

Lemma AB_AW_To_groups_witness :
  prop.AB_AW_To sgfpoint.ToSGF
    (Node.mk None None
       [move.New color.White (Some (sgfpoint.mk 2 2));
        move.New color.Black (Some (sgfpoint.mk 3 3));
        move.New color.Empty (Some (sgfpoint.mk 4 4));
        move.New color.Black (Some (sgfpoint.mk 15 15))]) =
    Returns ("AB[dd][pp]AW[cc]", None).
Proof.
  apply (AB_AW_To_groups sgfpoint.ToSGF
           (Node.mk None None
              [move.New color.White (Some (sgfpoint.mk 2 2));
               move.New color.Black (Some (sgfpoint.mk 3 3));
               move.New color.Empty (Some (sgfpoint.mk 4 4));
               move.New color.Black (Some (sgfpoint.mk 15 15))])
           sample_written).
  intros mv [<-|[<-|[<-|[<-|[]]]]]; reflexivity.
Defined.

Lemma AB_AW_To_first_failure_witness :
  prop.AB_AW_To sgfpoint.ToSGF
    (Node.mk None None
       [move.New color.Black (Some (sgfpoint.mk 3 3));
        move.New color.Empty (Some (sgfpoint.mk 99 0));
        move.New color.White (Some (sgfpoint.mk 2 2))]) =
    Returns ("", Some (ForeignError "point.ToSGF" "")) /\
  prop.AB_AW_To sgfpoint.ToSGF
    (Node.mk None None
       [move.New color.Black (Some (sgfpoint.mk 3 3));
        move.NewPass color.White]) =
    Panics NilDereference.
Proof.
  split.
  - destruct (AB_AW_To_first_failure sgfpoint.ToSGF
                (Node.mk None None
                   [move.New color.Black (Some (sgfpoint.mk 3 3));
                    move.New color.Empty (Some (sgfpoint.mk 99 0));
                    move.New color.White (Some (sgfpoint.mk 2 2))])
                [move.New color.Black (Some (sgfpoint.mk 3 3))]
                [move.New color.White (Some (sgfpoint.mk 2 2))]
                (move.New color.Empty (Some (sgfpoint.mk 99 0)))
                eq_refl) as [Herror _].
    + intros mv' [<-|[]]. exists "dd". reflexivity.
    + apply (Herror ""). reflexivity.
  - destruct (AB_AW_To_first_failure sgfpoint.ToSGF
                (Node.mk None None
                   [move.New color.Black (Some (sgfpoint.mk 3 3));
                    move.NewPass color.White])
                [move.New color.Black (Some (sgfpoint.mk 3 3))]
                []
                (move.NewPass color.White)
                eq_refl) as [_ Hpanic].
    + intros mv' [<-|[]]. exists "dd". reflexivity.
    + apply Hpanic. reflexivity.
Defined.

Lemma AB_AW_round_trip_witness :
  exists n1 n2 : Node,
    prop.AB_AW_From sgfpoint.NewFromSGF fresh "AW" ["cc"; "aa"] =
      (Returns None, n1) /\
    prop.AB_AW_From sgfpoint.NewFromSGF n1 "AB" ["dd"] = (Returns None, n2) /\
    prop.AB_AW_To sgfpoint.ToSGF n2 = Returns ("AB[dd]AW[cc][aa]", None).
Proof.
  apply (AB_AW_round_trip sgfpoint.NewFromSGF sgfpoint.ToSGF fresh
           ["dd"] ["cc"; "aa"]).
  - reflexivity.
  - intros v [<-|[<-|[<-|[]]]]; (split; [discriminate|]);
      eexists; split; reflexivity.
Defined.

Lemma KM_From_stores_a_komi_witness :
  exists v rest komi,
    ["6.50"; "x"] = v :: rest /\
    strconv.ParseFloat v = (komi, None) /\
    with_info 0 (Some komi_6_5) "" = prop.with_Komi fresh komi /\
    f64.valid komi = true /\
    (f64.is_whole komi = true \/
     (f64.is_half_point komi = true /\ f64.is_negative komi = false)) /\
    komi <> S754_nan /\ (forall s, komi <> S754_infinity s) /\
    prop.KM_To (with_info 0 (Some komi_6_5) "") =
      Returns ("KM[" ++ strconv.FormatFloat_f komi 1 ++ "]", None) /\
    prop.KM_From fresh "KM" [strconv.FormatFloat_f komi 1] =
      (Returns None, with_info 0 (Some komi_6_5) "").
Proof.
  apply (KM_From_stores_a_komi fresh (with_info 0 (Some komi_6_5) "") "KM"
           ["6.50"; "x"]).
  reflexivity.
Defined.

Lemma KM_To_cases_witness :
  prop.KM_To (with_info 19 (Some komi_minus_6_5) "") =
    Returns ("", Some (prop.KM_invalid_komi_error komi_minus_6_5)) /\
  prop.KM_To (with_info 19 (Some komi_6_5) "") = Returns ("KM[6.5]", None).
Proof.
  split.
  - apply (KM_To_cases (with_info 19 (Some komi_minus_6_5) "") _
             komi_minus_6_5 eq_refl eq_refl eq_refl).
  - apply (KM_To_cases (with_info 19 (Some komi_6_5) "") _
             komi_6_5 eq_refl eq_refl eq_refl).
Defined.

Lemma KM_To_reads_back_witness :
  "KM[6.5]" = "KM[" ++ strconv.FormatFloat_f komi_6_5 1 ++ "]" /\
  strconv.ParseFloat (strconv.FormatFloat_f komi_6_5 1) = (komi_6_5, None) /\
  forall (m : Node) (prop : string),
    prop.KM_From m prop [strconv.FormatFloat_f komi_6_5 1] =
      (Returns None, prop.with_Komi m komi_6_5).
Proof.
  apply (KM_To_reads_back (with_info 19 (Some komi_6_5) "") _ komi_6_5
           "KM[6.5]" eq_refl eq_refl eq_refl eq_refl).
Defined.

Lemma From_with_surplus_values_witness :
  prop.B_W_From sgfpoint.NewFromSGF fresh "B" ["dd"; "pp"] =
    (Returns (Some prop.move_arity_error), fresh) /\
  prop.KM_From fresh "KM" ["6.5"; "7.5"] = prop.KM_From fresh "KM" ["6.5"].
Proof.
  destruct (From_with_surplus_values sgfpoint.NewFromSGF fresh "B" "dd" "pp" [])
    as (_ & _ & HB & _).
  destruct (From_with_surplus_values sgfpoint.NewFromSGF fresh "KM" "6.5" "7.5" [])
    as (_ & _ & _ & HK).
  split; [apply HB; [reflexivity | left; reflexivity] | exact HK].
Defined.

End FurtherInstances.
